(** * jsxLoader compiler: a shallow embedding and its checked properties

    The compiler of [jsxLoader] turns JSX into JavaScript in four steps:
    [removeComments], [tokenizer], [parser] and [codeGenerator].  This file
    embeds these functions and proves properties of them.

    JavaScript strings are modelled as lists of characters ([list ascii],
    a character standing for one code unit in the range 0..255); offsets
    are indices into that list.  [null] and [undefined] are [None]. *)

From Stdlib Require Import String Ascii List ZArith Lia Bool.
From Stdlib Require Import Numbers.DecimalString.
Import ListNotations.

Local Open Scope list_scope.
Local Open Scope bool_scope.

(* ------------------------------------------------------------------ *)
(** ** Strings *)

Definition jsstr := list ascii.

Definition str (s : string) : jsstr := list_ascii_of_string s.

Definition newline : ascii := "010"%char.
Definition space : ascii := " "%char.
Definition dquote : ascii := "034"%char.

Definition streq (a b : jsstr) : bool :=
  if list_eq_dec ascii_dec a b then true else false.

Definition code (c : ascii) : nat := nat_of_ascii c.

Definition inRange (lo hi c : ascii) : bool :=
  (code lo <=? code c)%nat && (code c <=? code hi)%nat.

Definition isLetter (c : ascii) : bool :=
  inRange "a" "z" c || inRange "A" "Z" c.

Definition isDigit (c : ascii) : bool := inRange "0" "9" c.

(** White space of [String.prototype.trim] and of the regular expression
    class [\s], restricted to the code units 0..255. *)
Definition isWhite (c : ascii) : bool :=
  match code c with
  | 9 | 10 | 11 | 12 | 13 | 32 | 160 => true
  | _ => false
  end.

Fixpoint trimStart (s : jsstr) : jsstr :=
  match s with
  | c :: r => if isWhite c then trimStart r else s
  | [] => []
  end.

Definition trimEnd (s : jsstr) : jsstr := rev (trimStart (rev s)).

Definition trim (s : jsstr) : jsstr := trimEnd (trimStart s).

(** [input[i]] for an integer index: [None] is [undefined]. *)
Definition charAt (s : jsstr) (i : Z) : option ascii :=
  if (i <? 0)%Z then None else nth_error s (Z.to_nat i).

(** [s.substring(a, b)] for integer arguments. *)
Definition substring (s : jsstr) (a b : Z) : jsstr :=
  let len := Z.of_nat (length s) in
  let clamp x := Z.max 0 (Z.min x len) in
  let a' := clamp a in
  let b' := clamp b in
  let lo := Z.min a' b' in
  let hi := Z.max a' b' in
  firstn (Z.to_nat (hi - lo)) (skipn (Z.to_nat lo) s).

Fixpoint startsWith (p s : jsstr) : bool :=
  match p, s with
  | [], _ => true
  | a :: p', b :: s' => Ascii.eqb a b && startsWith p' s'
  | _ :: _, [] => false
  end.

Definition endsWith (s p : jsstr) : bool := startsWith (rev p) (rev s).

(** [s.indexOf(p) !== -1]. *)
Fixpoint includes (p s : jsstr) : bool :=
  startsWith p s ||
  match s with
  | [] => false
  | _ :: r => includes p r
  end.

(** [s.replace(c, empty)] for a one-character pattern [c]: the first
    occurrence only. *)
Fixpoint removeFirst (c : ascii) (s : jsstr) : jsstr :=
  match s with
  | [] => []
  | x :: r => if Ascii.eqb x c then r else x :: removeFirst c r
  end.

(** [s.split("\n")]: never empty. *)
Fixpoint splitLines (s : jsstr) : list jsstr :=
  match s with
  | [] => [[]]
  | c :: r =>
      if Ascii.eqb c newline then [] :: splitLines r
      else match splitLines r with
           | l :: ls => (c :: l) :: ls
           | [] => [[c]]
           end
  end.

(** Decimal rendering of a number, as string concatenation does it. *)
Definition numToStr (z : Z) : jsstr :=
  str (NilZero.string_of_int (Z.to_int z)).

Definition repeatSpace (n : nat) : jsstr := repeat space n.

(* ------------------------------------------------------------------ *)
(** ** getTextPosition *)

Definition getTextPosition (input : jsstr) (pos : option Z) : jsstr :=
  let p := match pos with Some p => p | None => 0%Z end in
  let lines := splitLines (substring input 0 p) in
  let lineCount := length lines in
  let line := last lines [] in
  str " at Line #: " ++ numToStr (Z.of_nat lineCount) ++
  str ", Column #: " ++ numToStr (Z.of_nat (length line) - 1) ++
  str ", Line: " ++ trim line.

(* ------------------------------------------------------------------ *)
(** ** isExpression *)

Definition isNameChar (c : ascii) : bool :=
  isLetter c || isDigit c || Ascii.eqb c "_" || Ascii.eqb c "/".

(** The [while (pos < length)] loop of [isExpression], run over the
    characters from [pos] on. *)
Fixpoint isExpression_loop (rest : jsstr) (foundName : bool) : bool :=
  match rest with
  | [] => false
  | nextChar :: rest' =>
      if isNameChar nextChar then
        if foundName then false else isExpression_loop rest' foundName
      else if Ascii.eqb nextChar ">" then false
      else if Ascii.eqb nextChar " " then isExpression_loop rest' true
      else if Ascii.eqb nextChar ")" || Ascii.eqb nextChar "&" ||
              Ascii.eqb nextChar "|" || Ascii.eqb nextChar "?" ||
              Ascii.eqb nextChar ";" then true
      else isExpression_loop rest' foundName
  end.

Definition isExpression (input : jsstr) (current : Z) : bool :=
  isExpression_loop (skipn (Z.to_nat (current + 2)) input) false.

(** [/[a-zA-Z>]/.test(x)]: [test] converts its argument to a string, and
    both ["null"] and ["undefined"] contain a letter. *)
Definition testLetterGt (x : option ascii) : bool :=
  match x with
  | Some c => isLetter c || Ascii.eqb c ">"
  | None => true
  end.

Definition testLetterGtSlash (x : option ascii) : bool :=
  match x with
  | Some c => isLetter c || Ascii.eqb c ">" || Ascii.eqb c "/"
  | None => true
  end.

(* ------------------------------------------------------------------ *)
(** ** Compiler step 1: removeComments *)

Module Comments.

Record State := mkState {
  inCommentReact : bool;
  inCommentSingleLine : bool;
  inCommentMultiLine : bool;
  inStringSingleQuote : bool;
  inStringDoubleQuote : bool;
  inStringMultiLine : bool;
  elementCount : Z;
  jsCount : Z
}.

Definition initialState : State :=
  mkState false false false false false false 0 0.

Definition set_inCommentReact b s :=
  mkState b (inCommentSingleLine s) (inCommentMultiLine s) (inStringSingleQuote s)
          (inStringDoubleQuote s) (inStringMultiLine s) (elementCount s) (jsCount s).
Definition set_inCommentSingleLine b s :=
  mkState (inCommentReact s) b (inCommentMultiLine s) (inStringSingleQuote s)
          (inStringDoubleQuote s) (inStringMultiLine s) (elementCount s) (jsCount s).
Definition set_inCommentMultiLine b s :=
  mkState (inCommentReact s) (inCommentSingleLine s) b (inStringSingleQuote s)
          (inStringDoubleQuote s) (inStringMultiLine s) (elementCount s) (jsCount s).
Definition set_inStringSingleQuote b s :=
  mkState (inCommentReact s) (inCommentSingleLine s) (inCommentMultiLine s) b
          (inStringDoubleQuote s) (inStringMultiLine s) (elementCount s) (jsCount s).
Definition set_inStringDoubleQuote b s :=
  mkState (inCommentReact s) (inCommentSingleLine s) (inCommentMultiLine s)
          (inStringSingleQuote s) b (inStringMultiLine s) (elementCount s) (jsCount s).
Definition set_inStringMultiLine b s :=
  mkState (inCommentReact s) (inCommentSingleLine s) (inCommentMultiLine s)
          (inStringSingleQuote s) (inStringDoubleQuote s) b (elementCount s) (jsCount s).
Definition set_elementCount z s :=
  mkState (inCommentReact s) (inCommentSingleLine s) (inCommentMultiLine s)
          (inStringSingleQuote s) (inStringDoubleQuote s) (inStringMultiLine s) z (jsCount s).
Definition set_jsCount z s :=
  mkState (inCommentReact s) (inCommentSingleLine s) (inCommentMultiLine s)
          (inStringSingleQuote s) (inStringDoubleQuote s) (inStringMultiLine s)
          (elementCount s) z.

(** [newInput[i] = v] on a JavaScript array: an index past the end extends
    the array with holes. *)
Fixpoint write {A} (i : nat) (v : A) (arr : list (option A)) : list (option A) :=
  match i, arr with
  | O, [] => [Some v]
  | O, _ :: r => Some v :: r
  | S i', [] => None :: write i' v []
  | S i', x :: r => x :: write i' v r
  end.

(** [newInput.join] with the empty separator: a hole contributes nothing. *)
Fixpoint join (arr : list (option ascii)) : jsstr :=
  match arr with
  | [] => []
  | Some c :: r => c :: join r
  | None :: r => join r
  end.

(** The variables the [while] loop updates. *)
Record Loop := mkLoop {
  state : State;
  current : nat;
  newInput : list (option ascii)
}.

Section Body.

Variable input : jsstr.

Let length := List.length input.

Definition peekNext (current : nat) : option ascii :=
  if (current + 1 <? length)%nat then nth_error input (current + 1) else None.

Definition peekNext2 (current : nat) : option (ascii * ascii) :=
  if (current + 2 <? length)%nat then
    match nth_error input (current + 1), nth_error input (current + 2) with
    | Some a, Some b => Some (a, b)
    | _, _ => None
    end
  else None.

(** [input[current - 1]]. *)
Definition prev (current : nat) : option ascii :=
  match current with
  | O => None
  | S p => nth_error input p
  end.

Definition optIs (x : option ascii) (c : ascii) : bool :=
  match x with
  | Some y => Ascii.eqb y c
  | None => false
  end.

Definition opt2Is (x : option (ascii * ascii)) (a b : ascii) : bool :=
  match x with
  | Some (y, z) => Ascii.eqb y a && Ascii.eqb z b
  | None => false
  end.

(** The tail of every iteration: [newInput[current] = char; current++]. *)
Definition finish (st : State) (cur : nat) (arr : list (option ascii)) (char : ascii) : Loop :=
  mkLoop st (S cur) (write cur char arr).

(** The [switch (char)] of the state outside comments and strings. *)
Definition plain (st : State) (cur : nat) (arr : list (option ascii)) (char : ascii) : Loop :=
  if Ascii.eqb char "{" then
    if opt2Is (peekNext2 cur) "/" "*" then
      finish (set_inCommentReact true st) (cur + 2)
             (write (cur + 1) space (write cur space arr)) space
    else if (elementCount st >? 0)%Z then
      finish (set_jsCount (jsCount st + 1) st) cur arr char
    else finish st cur arr char
  else if Ascii.eqb char "}" then
    if (elementCount st >? 0)%Z && (jsCount st >? 0)%Z then
      finish (set_jsCount (jsCount st - 1) st) cur arr char
    else finish st cur arr char
  else if Ascii.eqb char "/" then
    if (elementCount st =? 0)%Z || (jsCount st >? 0)%Z then
      let next := peekNext cur in
      let st1 := set_inCommentSingleLine (optIs next "/") st in
      let st2 := if negb (inCommentSingleLine st1)
                 then set_inCommentMultiLine (optIs next "*") st1 else st1 in
      if inCommentSingleLine st2 || inCommentMultiLine st2 then
        finish st2 (cur + 1) (write cur space arr) space
      else finish st2 cur arr char
    else finish st cur arr char
  else if Ascii.eqb char dquote then
    finish (set_inStringDoubleQuote true st) cur arr char
  else if Ascii.eqb char "'" then
    finish (set_inStringSingleQuote true st) cur arr char
  else if Ascii.eqb char "`" then
    finish (set_inStringMultiLine true st) cur arr char
  else if Ascii.eqb char "<" then
    let charNext := peekNext cur in
    if testLetterGt charNext && negb (isExpression input (Z.of_nat cur)) then
      finish (set_elementCount (elementCount st + 1) st) cur arr char
    else if optIs charNext "/" then
      finish (set_elementCount (elementCount st - 1) st) cur arr char
    else finish st cur arr char
  else if Ascii.eqb char ">" then
    if optIs (prev cur) "/" && (elementCount st >? 0)%Z then
      finish (set_elementCount (elementCount st - 1) st) cur arr char
    else finish st cur arr char
  else finish st cur arr char.

(** One iteration of [while (current < length)], [char] being
    [input[current]]. *)
Definition body (char : ascii) (l : Loop) : Loop :=
  let st := state l in
  let cur := current l in
  let arr := newInput l in
  if inCommentReact st then
    if Ascii.eqb char "*" && opt2Is (peekNext2 cur) "/" "}" then
      finish (set_inCommentReact false st) (cur + 2)
             (write (cur + 1) space (write cur space arr)) space
    else if negb (Ascii.eqb char newline) then finish st cur arr space
    else finish st cur arr char
  else if inCommentSingleLine st then
    if Ascii.eqb char newline then finish (set_inCommentSingleLine false st) cur arr char
    else finish st cur arr space
  else if inCommentMultiLine st then
    if Ascii.eqb char "*" && optIs (peekNext cur) "/" then
      finish (set_inCommentMultiLine false st) (cur + 1) (write cur space arr) space
    else if negb (Ascii.eqb char newline) then finish st cur arr space
    else finish st cur arr char
  else if inStringDoubleQuote st then
    if Ascii.eqb char dquote && negb (optIs (prev cur) "\") then
      finish (set_inStringDoubleQuote false st) cur arr char
    else finish st cur arr char
  else if inStringSingleQuote st then
    if Ascii.eqb char "'" && negb (optIs (prev cur) "\") then
      finish (set_inStringSingleQuote false st) cur arr char
    else finish st cur arr char
  else if inStringMultiLine st then
    if Ascii.eqb char "`" then finish (set_inStringMultiLine false st) cur arr char
    else finish st cur arr char
  else plain st cur arr char.

(** [while (current < length) { ... }]; every iteration advances
    [current], so [fuel = length] iterations are enough
    (see [loop_reaches_end]). *)
Fixpoint loop (fuel : nat) (l : Loop) : Loop :=
  match fuel with
  | O => l
  | S fuel' =>
      match nth_error input (current l) with
      | None => l
      | Some char => loop fuel' (body char l)
      end
  end.

End Body.

Definition removeComments (input : jsstr) : jsstr :=
  let length := List.length input in
  join (newInput (loop input length
                       (mkLoop initialState 0 (repeat None length)))).

End Comments.

Definition removeComments := Comments.removeComments.


(* ------------------------------------------------------------------ *)
(** ** Tokens, errors and configuration *)

Inductive TokenType :=
| js | e_start | e_end | e_prop | e_value | e_child_text | e_child_js
| e_child_whitespace | e_child_js_start | e_child_js_end.

Definition TokenType_eqb (a b : TokenType) : bool :=
  match a, b with
  | js, js | e_start, e_start | e_end, e_end | e_prop, e_prop
  | e_value, e_value | e_child_text, e_child_text | e_child_js, e_child_js
  | e_child_whitespace, e_child_whitespace
  | e_child_js_start, e_child_js_start | e_child_js_end, e_child_js_end => true
  | _, _ => false
  end.

(** The enum values are overwritten by their keys when the script loads. *)
Definition typeName (t : TokenType) : jsstr :=
  str match t with
      | js => "js" | e_start => "e_start" | e_end => "e_end"
      | e_prop => "e_prop" | e_value => "e_value"
      | e_child_text => "e_child_text" | e_child_js => "e_child_js"
      | e_child_whitespace => "e_child_whitespace"
      | e_child_js_start => "e_child_js_start"
      | e_child_js_end => "e_child_js_end"
      end.

(** A token object; [tok_index] is the property the parser adds. *)
Record Token := mkToken {
  tok_type : TokenType;
  tok_value : jsstr;
  tok_pos : option Z;
  tok_index : option nat
}.

Definition token (t : TokenType) (v : jsstr) (p : option Z) : Token :=
  mkToken t v p None.

(** The errors the compiler throws.  [position] is the text
    [getTextPosition] returned when the error was built. *)
Inductive Error :=
| EndlessLoop
| CallCountTokenizer
| UnhandledCharacter (value position : jsstr)
| SlashNotClosing (value position : jsstr)
| CallCountParser
| MismatchedTags (endName name : jsstr) (index : option nat) (position : jsstr)
| TokensOutOfOrder1 (type : TokenType) (index : option nat) (position : jsstr)
| UnexpectedInJsChildProp (type : TokenType) (index : option nat) (position : jsstr)
| TokensOutOfOrder2 (type : TokenType) (index : option nat) (position : jsstr)
| UnbalancedElements
| UnhandledChildType (type : TokenType)
| UnhandledAstType (type : option TokenType)
| EngineTypeError   (* a property read on [null] or [undefined] *)
| OutOfFuel.        (* not an error of the program: the model's recursion bound *)

Definition indexToStr (i : option nat) : jsstr :=
  match i with
  | Some n => numToStr (Z.of_nat n)
  | None => str "undefined"
  end.

Definition message (e : Error) : jsstr :=
  match e with
  | EndlessLoop => str "Endless loop encountered in tokenizer"
  | CallCountTokenizer =>
      str "Call count exceeded in tokenizer. If you have a large JSX file that is valid you can increase them limit using the property `jsxLoader.compiler.maxRecursiveCalls`."
  | UnhandledCharacter v p =>
      str "Unhandled character in element properties: `" ++ v ++ str "`" ++ p
  | SlashNotClosing v p =>
      str "Error found a " ++ [dquote] ++ str "/" ++ [dquote] ++
      str " character in element [" ++ v ++
      str "] but not closing " ++ [dquote] ++ str "/>" ++ [dquote] ++ p
  | CallCountParser =>
      str "Call count exceeded in parser. If you have a large JSX file that is valid you can increase them limit using the property `jsxLoader.compiler.maxRecursiveCalls`."
  | MismatchedTags e n i p =>
      str "Found closing element [" ++ e ++
      str "] that does not match opening element [" ++ n ++
      str "] from Token # " ++ indexToStr i ++ p
  | TokensOutOfOrder1 t i p =>
      str "Tokens are out of order 1: [" ++ typeName t ++
      str "], Token #: " ++ indexToStr i ++ p
  | UnexpectedInJsChildProp t i p =>
      str "Found unexpected token type in JS child prop: [" ++ typeName t ++
      str "], Token #: " ++ indexToStr i ++ p
  | TokensOutOfOrder2 t i p =>
      str "Tokens are out of order 2: [" ++ typeName t ++
      str "], Token #: " ++ indexToStr i ++ p
  | UnbalancedElements =>
      str "The number of opening elements (for example: " ++ [dquote] ++
      str "<div>" ++ [dquote] ++
      str ") does not match the number closing elements (" ++ [dquote] ++
      str "</div>" ++ [dquote] ++ str ")."
  | UnhandledChildType t =>
      str "Unhandled child type codeGenerator(): " ++ typeName t
  | UnhandledAstType t =>
      str "Unhandled AST type in codeGenerator: " ++
      match t with Some t => typeName t | None => str "undefined" end
  | EngineTypeError => str "TypeError"
  | OutOfFuel => []
  end.

(** The position text an error message ends with, when it has one. *)
Definition positionOf (e : Error) : option jsstr :=
  match e with
  | UnhandledCharacter _ p | SlashNotClosing _ p | MismatchedTags _ _ _ p
  | TokensOutOfOrder1 _ _ p | UnexpectedInJsChildProp _ _ p
  | TokensOutOfOrder2 _ _ p => Some p
  | _ => None
  end.

Inductive Result (A : Type) :=
| Ok (a : A)
| Throw (e : Error).
Arguments Ok {A} a.
Arguments Throw {A} e.

Definition bind {A B} (r : Result A) (k : A -> Result B) : Result B :=
  match r with
  | Ok a => k a
  | Throw e => Throw e
  end.

Notation "x <- e ;; k" := (bind e (fun x => k))
  (at level 61, e at next level, right associativity).
Notation "' p <- e ;; k" := (bind e (fun x => let p := x in k))
  (at level 61, p pattern, e at next level, right associativity).

(** The compiler options. *)
Record Config := mkConfig {
  pragma : jsstr;
  pragmaFrag : jsstr;
  maxRecursiveCalls : Z;
  addUseStrict : bool
}.

Definition defaultConfig : Config :=
  mkConfig (str "React.createElement") (str "React.Fragment") 1000 true.

(** [JSON.stringify] of a string. *)
Definition hexDigit (n : nat) : ascii :=
  nth n (str "0123456789abcdef") "0"%char.

Definition jsonEscape (c : ascii) : jsstr :=
  match code c with
  | 8 => str "\b"
  | 9 => str "\t"
  | 10 => str "\n"
  | 12 => str "\f"
  | 13 => str "\r"
  | 34 => ["\"%char; dquote]
  | 92 => str "\\"
  | n => if (n <? 32)%nat
         then str "\u00" ++ [hexDigit (n / 16); hexDigit (n mod 16)]
         else [c]
  end.

Definition jsonStringify (s : jsstr) : jsstr :=
  [dquote] ++ flat_map jsonEscape s ++ [dquote].

(* ------------------------------------------------------------------ *)
(** ** Compiler step 2: tokenizer *)

Module Lexer.

(** The per-element record kept on [state.elementState]. *)
Record ElementState := mkElementState {
  inJs : bool;
  jsBracketCount : Z;
  closeJs : bool;
  inPropJs : bool;
  jsPropBracketCount : Z
}.

Definition set_inJs (v : bool) (r : ElementState) : ElementState :=
  mkElementState v (jsBracketCount r) (closeJs r) (inPropJs r) (jsPropBracketCount r).
Definition set_jsBracketCount (v : Z) (r : ElementState) : ElementState :=
  mkElementState (inJs r) v (closeJs r) (inPropJs r) (jsPropBracketCount r).
Definition set_closeJs (v : bool) (r : ElementState) : ElementState :=
  mkElementState (inJs r) (jsBracketCount r) v (inPropJs r) (jsPropBracketCount r).
Definition set_inPropJs (v : bool) (r : ElementState) : ElementState :=
  mkElementState (inJs r) (jsBracketCount r) (closeJs r) v (jsPropBracketCount r).
Definition set_jsPropBracketCount (v : Z) (r : ElementState) : ElementState :=
  mkElementState (inJs r) (jsBracketCount r) (closeJs r) (inPropJs r) v.

Definition newElementState : ElementState :=
  mkElementState false 0 false false 0.

(** The [state] object of one [tokenizeElement] call.
    [currentElementState] is a reference to an element of
    [elementState] (or [null]/[undefined]): it is modelled by the index of
    that element, so that a write through it is seen in the array. *)
Record State := mkState {
  value : jsstr;
  elementStack : Z;
  elementState : list ElementState;
  currentElementState : option nat;
  inElement : bool;
  hasElementName : bool;
  elementClosed : bool;
  closeElement : bool;
  closingElement : bool;
  fatalError : bool;
  errorMessage : option Error;
  addElementEnd : bool;
  breakLoop : bool;
  addChild : bool;
  addChar : bool;
  hasProp : bool;
  inValue : bool;
  inPropString : bool;
  propStringChar : option jsstr;
  jsWithElement : bool
}.

Definition set_value (v : jsstr) (r : State) : State :=
  mkState v (elementStack r) (elementState r) (currentElementState r) (inElement r) (hasElementName r) (elementClosed r) (closeElement r) (closingElement r) (fatalError r) (errorMessage r) (addElementEnd r) (breakLoop r) (addChild r) (addChar r) (hasProp r) (inValue r) (inPropString r) (propStringChar r) (jsWithElement r).
Definition set_elementStack (v : Z) (r : State) : State :=
  mkState (value r) v (elementState r) (currentElementState r) (inElement r) (hasElementName r) (elementClosed r) (closeElement r) (closingElement r) (fatalError r) (errorMessage r) (addElementEnd r) (breakLoop r) (addChild r) (addChar r) (hasProp r) (inValue r) (inPropString r) (propStringChar r) (jsWithElement r).
Definition set_elementState (v : list ElementState) (r : State) : State :=
  mkState (value r) (elementStack r) v (currentElementState r) (inElement r) (hasElementName r) (elementClosed r) (closeElement r) (closingElement r) (fatalError r) (errorMessage r) (addElementEnd r) (breakLoop r) (addChild r) (addChar r) (hasProp r) (inValue r) (inPropString r) (propStringChar r) (jsWithElement r).
Definition set_currentElementState (v : option nat) (r : State) : State :=
  mkState (value r) (elementStack r) (elementState r) v (inElement r) (hasElementName r) (elementClosed r) (closeElement r) (closingElement r) (fatalError r) (errorMessage r) (addElementEnd r) (breakLoop r) (addChild r) (addChar r) (hasProp r) (inValue r) (inPropString r) (propStringChar r) (jsWithElement r).
Definition set_inElement (v : bool) (r : State) : State :=
  mkState (value r) (elementStack r) (elementState r) (currentElementState r) v (hasElementName r) (elementClosed r) (closeElement r) (closingElement r) (fatalError r) (errorMessage r) (addElementEnd r) (breakLoop r) (addChild r) (addChar r) (hasProp r) (inValue r) (inPropString r) (propStringChar r) (jsWithElement r).
Definition set_hasElementName (v : bool) (r : State) : State :=
  mkState (value r) (elementStack r) (elementState r) (currentElementState r) (inElement r) v (elementClosed r) (closeElement r) (closingElement r) (fatalError r) (errorMessage r) (addElementEnd r) (breakLoop r) (addChild r) (addChar r) (hasProp r) (inValue r) (inPropString r) (propStringChar r) (jsWithElement r).
Definition set_elementClosed (v : bool) (r : State) : State :=
  mkState (value r) (elementStack r) (elementState r) (currentElementState r) (inElement r) (hasElementName r) v (closeElement r) (closingElement r) (fatalError r) (errorMessage r) (addElementEnd r) (breakLoop r) (addChild r) (addChar r) (hasProp r) (inValue r) (inPropString r) (propStringChar r) (jsWithElement r).
Definition set_closeElement (v : bool) (r : State) : State :=
  mkState (value r) (elementStack r) (elementState r) (currentElementState r) (inElement r) (hasElementName r) (elementClosed r) v (closingElement r) (fatalError r) (errorMessage r) (addElementEnd r) (breakLoop r) (addChild r) (addChar r) (hasProp r) (inValue r) (inPropString r) (propStringChar r) (jsWithElement r).
Definition set_closingElement (v : bool) (r : State) : State :=
  mkState (value r) (elementStack r) (elementState r) (currentElementState r) (inElement r) (hasElementName r) (elementClosed r) (closeElement r) v (fatalError r) (errorMessage r) (addElementEnd r) (breakLoop r) (addChild r) (addChar r) (hasProp r) (inValue r) (inPropString r) (propStringChar r) (jsWithElement r).
Definition set_fatalError (v : bool) (r : State) : State :=
  mkState (value r) (elementStack r) (elementState r) (currentElementState r) (inElement r) (hasElementName r) (elementClosed r) (closeElement r) (closingElement r) v (errorMessage r) (addElementEnd r) (breakLoop r) (addChild r) (addChar r) (hasProp r) (inValue r) (inPropString r) (propStringChar r) (jsWithElement r).
Definition set_errorMessage (v : option Error) (r : State) : State :=
  mkState (value r) (elementStack r) (elementState r) (currentElementState r) (inElement r) (hasElementName r) (elementClosed r) (closeElement r) (closingElement r) (fatalError r) v (addElementEnd r) (breakLoop r) (addChild r) (addChar r) (hasProp r) (inValue r) (inPropString r) (propStringChar r) (jsWithElement r).
Definition set_addElementEnd (v : bool) (r : State) : State :=
  mkState (value r) (elementStack r) (elementState r) (currentElementState r) (inElement r) (hasElementName r) (elementClosed r) (closeElement r) (closingElement r) (fatalError r) (errorMessage r) v (breakLoop r) (addChild r) (addChar r) (hasProp r) (inValue r) (inPropString r) (propStringChar r) (jsWithElement r).
Definition set_breakLoop (v : bool) (r : State) : State :=
  mkState (value r) (elementStack r) (elementState r) (currentElementState r) (inElement r) (hasElementName r) (elementClosed r) (closeElement r) (closingElement r) (fatalError r) (errorMessage r) (addElementEnd r) v (addChild r) (addChar r) (hasProp r) (inValue r) (inPropString r) (propStringChar r) (jsWithElement r).
Definition set_addChild (v : bool) (r : State) : State :=
  mkState (value r) (elementStack r) (elementState r) (currentElementState r) (inElement r) (hasElementName r) (elementClosed r) (closeElement r) (closingElement r) (fatalError r) (errorMessage r) (addElementEnd r) (breakLoop r) v (addChar r) (hasProp r) (inValue r) (inPropString r) (propStringChar r) (jsWithElement r).
Definition set_addChar (v : bool) (r : State) : State :=
  mkState (value r) (elementStack r) (elementState r) (currentElementState r) (inElement r) (hasElementName r) (elementClosed r) (closeElement r) (closingElement r) (fatalError r) (errorMessage r) (addElementEnd r) (breakLoop r) (addChild r) v (hasProp r) (inValue r) (inPropString r) (propStringChar r) (jsWithElement r).
Definition set_hasProp (v : bool) (r : State) : State :=
  mkState (value r) (elementStack r) (elementState r) (currentElementState r) (inElement r) (hasElementName r) (elementClosed r) (closeElement r) (closingElement r) (fatalError r) (errorMessage r) (addElementEnd r) (breakLoop r) (addChild r) (addChar r) v (inValue r) (inPropString r) (propStringChar r) (jsWithElement r).
Definition set_inValue (v : bool) (r : State) : State :=
  mkState (value r) (elementStack r) (elementState r) (currentElementState r) (inElement r) (hasElementName r) (elementClosed r) (closeElement r) (closingElement r) (fatalError r) (errorMessage r) (addElementEnd r) (breakLoop r) (addChild r) (addChar r) (hasProp r) v (inPropString r) (propStringChar r) (jsWithElement r).
Definition set_inPropString (v : bool) (r : State) : State :=
  mkState (value r) (elementStack r) (elementState r) (currentElementState r) (inElement r) (hasElementName r) (elementClosed r) (closeElement r) (closingElement r) (fatalError r) (errorMessage r) (addElementEnd r) (breakLoop r) (addChild r) (addChar r) (hasProp r) (inValue r) v (propStringChar r) (jsWithElement r).
Definition set_propStringChar (v : option jsstr) (r : State) : State :=
  mkState (value r) (elementStack r) (elementState r) (currentElementState r) (inElement r) (hasElementName r) (elementClosed r) (closeElement r) (closingElement r) (fatalError r) (errorMessage r) (addElementEnd r) (breakLoop r) (addChild r) (addChar r) (hasProp r) (inValue r) (inPropString r) v (jsWithElement r).
Definition set_jsWithElement (v : bool) (r : State) : State :=
  mkState (value r) (elementStack r) (elementState r) (currentElementState r) (inElement r) (hasElementName r) (elementClosed r) (closeElement r) (closingElement r) (fatalError r) (errorMessage r) (addElementEnd r) (breakLoop r) (addChild r) (addChar r) (hasProp r) (inValue r) (inPropString r) (propStringChar r) v.

(** The variables of [tokenizer] that its private functions share. *)
Record Vars := mkVars {
  current : Z;
  tokens : list Token;
  char : option jsstr;
  pos : option Z;
  loopCount : Z;
  callCount : Z
}.

Definition set_current (v : Z) (r : Vars) : Vars :=
  mkVars v (tokens r) (char r) (pos r) (loopCount r) (callCount r).
Definition set_tokens (v : list Token) (r : Vars) : Vars :=
  mkVars (current r) v (char r) (pos r) (loopCount r) (callCount r).
Definition set_char (v : option jsstr) (r : Vars) : Vars :=
  mkVars (current r) (tokens r) v (pos r) (loopCount r) (callCount r).
Definition set_pos (v : option Z) (r : Vars) : Vars :=
  mkVars (current r) (tokens r) (char r) v (loopCount r) (callCount r).
Definition set_loopCount (v : Z) (r : Vars) : Vars :=
  mkVars (current r) (tokens r) (char r) (pos r) v (callCount r).
Definition set_callCount (v : Z) (r : Vars) : Vars :=
  mkVars (current r) (tokens r) (char r) (pos r) (loopCount r) v.

Definition isBlank (s : jsstr) : bool :=
  match trim s with
  | [] => true
  | _ :: _ => false
  end.

(** [value += char]: [undefined] is appended as its name. *)
Definition toStr (x : option jsstr) : jsstr :=
  match x with
  | Some s => s
  | None => str "undefined"
  end.

(** [char === "c"] for a one-character literal. *)
Definition isCh (x : option jsstr) (c : ascii) : bool :=
  match x with
  | Some [y] => Ascii.eqb y c
  | _ => false
  end.

(** [char === state.propStringChar]; [undefined === null] is false. *)
Definition sameChar (x y : option jsstr) : bool :=
  match x, y with
  | Some a, Some b => streq a b
  | _, _ => false
  end.

Definition optIs (x : option ascii) (c : ascii) : bool :=
  match x with
  | Some y => Ascii.eqb y c
  | None => false
  end.

Definition isWs (x : option jsstr) : bool :=
  isCh x " " || isCh x "009" || isCh x "013" || isCh x "010".

(** [/^[a-zA-Z0-9-_]*$/.test(s)]. *)
Definition testPropName (s : jsstr) : bool :=
  forallb (fun c => isLetter c || isDigit c || Ascii.eqb c "-" || Ascii.eqb c "_") s.

Definition isLineTerminator (c : ascii) : bool :=
  Ascii.eqb c "010" || Ascii.eqb c "013".

(** [.+}] matched at the head of [s]. *)
Fixpoint dotPlusBrace (seen : bool) (s : jsstr) : bool :=
  match s with
  | [] => false
  | c :: r =>
      (seen && Ascii.eqb c "}") ||
      (if isLineTerminator c then false else dotPlusBrace true r)
  end.

(** [/{\.\.\.(.+)}/.test(s)]. *)
Fixpoint testSpread (s : jsstr) : bool :=
  (startsWith (str "{...") s && dotPlusBrace false (skipn 4 s)) ||
  match s with
  | [] => false
  | _ :: r => testSpread r
  end.

Definition getCur (st : State) : Result ElementState :=
  match currentElementState st with
  | Some i =>
      match nth_error (elementState st) i with
      | Some e => Ok e
      | None => Throw EngineTypeError
      end
  | None => Throw EngineTypeError
  end.

Fixpoint update {A} (i : nat) (f : A -> A) (l : list A) : list A :=
  match i, l with
  | _, [] => []
  | O, x :: r => f x :: r
  | S i', x :: r => x :: update i' f r
  end.

(** A write through [state.currentElementState]. *)
Definition setCur (f : ElementState -> ElementState) (st : State) : State :=
  match currentElementState st with
  | Some i => set_elementState (update i f (elementState st)) st
  | None => st
  end.

(** [state.elementStack === 0 ? null : state.elementState[state.elementStack - 1]]. *)
Definition refAt (st : State) : option nat :=
  let i := (elementStack st - 1)%Z in
  if (elementStack st =? 0)%Z then None
  else if (0 <=? i)%Z && (i <? Z.of_nat (List.length (elementState st)))%Z
       then Some (Z.to_nat i) else None.

Definition popElement (st : State) : State :=
  let st := set_elementStack (elementStack st - 1) st in
  let st := set_elementState (removelast (elementState st)) st in
  set_currentElementState (refAt st) st.

Definition pushElement (st : State) : State :=
  let st := set_elementStack (elementStack st + 1) st in
  let st := set_currentElementState (Some (List.length (elementState st))) st in
  set_elementState (elementState st ++ [newElementState]) st.

Definition push (t : Token) (v : Vars) : Vars :=
  set_tokens (tokens v ++ [t]) v.

Definition lastTokenType (v : Vars) : Result TokenType :=
  match last (map Some (tokens v)) None with
  | Some t => Ok (tok_type t)
  | None => Throw EngineTypeError
  end.

Section Tokenizer.

Variable input : jsstr.
Variable maxRecursiveCalls : Z.

Let length : Z := Z.of_nat (List.length input).

(** The loop of [nextElementPos]; [sq], [dq] and [ml] are its three
    string flags.  [c] grows by one per iteration up to [length - 1]. *)
Fixpoint nextElementPos_loop (fuel : nat) (c : Z) (sq dq ml : bool) : option Z :=
  match fuel with
  | O => None
  | S fuel' =>
      if (c <? length - 1)%Z then
        let char := charAt input c in
        if dq then
          nextElementPos_loop fuel' (c + 1)%Z sq
            (negb (optIs char dquote && negb (optIs (charAt input (c - 1)) "\"))) ml
        else if sq then
          nextElementPos_loop fuel' (c + 1)%Z
            (negb (optIs char "'" && negb (optIs (charAt input (c - 1)) "\"))) dq ml
        else if ml then
          nextElementPos_loop fuel' (c + 1)%Z sq dq (negb (optIs char "`"))
        else if optIs char dquote then nextElementPos_loop fuel' (c + 1)%Z sq true ml
        else if optIs char "'" then nextElementPos_loop fuel' (c + 1)%Z true dq ml
        else if optIs char "`" then nextElementPos_loop fuel' (c + 1)%Z sq dq true
        else if optIs char "<" then
          if testLetterGt (charAt input (c + 1)) && negb (isExpression input c)
          then Some c
          else nextElementPos_loop fuel' (c + 1)%Z sq dq ml
        else nextElementPos_loop fuel' (c + 1)%Z sq dq ml
      else None
  end.

Definition nextElementPos (current : Z) : option Z :=
  nextElementPos_loop (Z.to_nat (length - 1 - current)) current false false false.

Definition peekCurrent (v : Vars) : option ascii :=
  if (current v <? length)%Z then charAt input (current v) else None.

Definition peekNext (v : Vars) : option ascii :=
  if (current v <? length)%Z then charAt input (current v + 1) else None.

Definition loopCheck (v : Vars) : Result Vars :=
  let v := set_loopCount (loopCount v + 1) v in
  if (loopCount v >? length)%Z then Throw EndlessLoop else Ok v.

(** How a [switch] of the attribute loop is left: by [continue], by
    [break], or at the recursive call of its ["<"] case. *)
Inductive Switch :=
| Continue (st : State) (v : Vars)
| Break (st : State) (v : Vars)
| Nested (st : State) (v : Vars).

Definition propOrValue (st : State) : TokenType :=
  if hasProp st then e_value else e_prop.

(** The [switch (char)] of the attribute loop, up to the recursive call. *)
Definition propSwitch (st : State) (v : Vars) : Result Switch :=
  let ch := char v in
  if isCh ch "=" then
    cur <- getCur st ;;
    if inPropJs cur then Ok (Break st v)
    else
      let '(st, v) :=
        if negb (isBlank (value st))
        then (set_inValue true (set_hasProp true st),
              push (token e_prop (value st) (Some (current v))) v)
        else (st, v) in
      let st := set_value [] st in
      let nextChar := peekCurrent v in
      if optIs nextChar dquote || optIs nextChar "'" then
        Ok (Continue
              (set_propStringChar (option_map (fun c => [c]) nextChar)
                 (set_inPropString true st))
              (set_current (current v + 1) v))
      else if optIs nextChar "{" then
        Ok (Continue
              (setCur (fun e => set_jsPropBracketCount 0 (set_inPropJs true e)) st)
              (set_current (current v + 1) v))
      else Ok (Continue st v)
  else if sameChar ch (propStringChar st) then
    if inPropString st then
      let st := set_inPropString false st in
      let v := push (token (propOrValue st) (jsonStringify (value st))
                           (Some (current v))) v in
      Ok (Continue (set_value [] (set_hasProp false (set_inValue false st))) v)
    else Ok (Break st v)
  else if isCh ch "}" then
    cur <- getCur st ;;
    if inPropJs cur then
      if (jsPropBracketCount cur =? 0)%Z then
        let st := setCur (set_inPropJs false) st in
        let '(st, v) :=
          if negb (isBlank (value st)) then
            if jsWithElement st then
              (set_jsWithElement false st,
               push (token e_child_js_end (value st) (Some (current v))) v)
            else if negb (streq (trim (value st)) (str ">")) then
              (set_hasProp false st,
               push (token e_value (value st) (Some (current v))) v)
            else (st, v)
          else (st, v) in
        Ok (Continue (set_value [] (set_inValue false st)) v)
      else
        Ok (Break (setCur (fun e => set_jsPropBracketCount (jsPropBracketCount e - 1) e) st) v)
    else Ok (Break st v)
  else if isWs ch then
    cur <- getCur st ;;
    if negb (inPropJs cur) then
      let v := if negb (isBlank (value st))
               then push (token (propOrValue st) (value st) (Some (current v))) v
               else v in
      Ok (Break (set_value [] (set_inValue false st)) v)
    else Ok (Break st v)
  else if isCh ch "/" then
    if optIs (peekCurrent v) ">" then
      Ok (Break (set_hasElementName false (set_breakLoop true st))
                (set_current (current v - 1) v))
    else Ok (Break st v)
  else if isCh ch "<" then
    cur <- getCur st ;;
    if inPropJs cur && negb (optIs (peekCurrent v) " ") then
      let '(st, v) :=
        if negb (isBlank (value st))
        then (set_jsWithElement true (set_value [] st),
              push (token e_child_js_start (value st) (Some (current v))) v)
        else (st, v) in
      Ok (Nested st (set_current (current v - 1) v))
    else Ok (Break st v)
  else if isCh ch "{" then
    cur <- getCur st ;;
    if inPropJs cur then
      Ok (Break (setCur (fun e => set_jsPropBracketCount (jsPropBracketCount e + 1) e) st) v)
    else Ok (Break st v)
  else if isCh ch ">" then
    cur <- getCur st ;;
    if negb (inPropJs cur)
    then Ok (Break (set_hasElementName false (set_breakLoop true st)) v)
    else Ok (Break st v)
  else Ok (Break st v).

(** How a loop of [tokenizeElement] is left: it goes on to the code after
    it, or the function returns from inside it. *)
Inductive Flow :=
| Next (st : State) (v : Vars)
| Return (v : Vars).

(** The [if (state.breakLoop)] block of the attribute loop. *)
Definition breakBlock (st : State) (v : Vars) : Result Flow :=
  let trimValue := trim (value st) in
  let leave st v := Ok (Next (set_breakLoop false (set_value [] st)) v) in
  selfClosing <-
    (if streq (value st) (str "/") && isCh (char v) ">" then
       t <- lastTokenType v ;; Ok (TokenType_eqb t e_start)
     else Ok false) ;;
  if selfClosing then
    let v := push (token e_end (value st ++ toStr (char v)) (Some (current v))) v in
    if (elementStack st <=? 1)%Z then
      Ok (Return (if negb (optIs (peekCurrent v) "}")
                  then set_current (current v - 1) v else v))
    else leave (popElement st) v
  else
    bareProp <-
      (if isCh (char v) ">" && negb (streq trimValue []) &&
          (testPropName trimValue || testSpread trimValue) then
         t <- lastTokenType v ;;
         Ok (TokenType_eqb t e_start || TokenType_eqb t e_value)
       else Ok false) ;;
    if bareProp then
      leave st (push (token e_prop trimValue (Some (current v))) v)
    else if negb (streq trimValue []) then
      Throw (UnhandledCharacter (value st)
               (getTextPosition input (Some (current v))))
    else leave st v.

(** The [switch (char)] that follows the attribute loop inside a tag. *)
Definition tagSwitch (st : State) (v : Vars) : State * Vars :=
  let ch := char v in
  if isCh ch "/" then
    if streq (value st) [] || streq (value st) (str "<") then
      (set_closingElement true st, v)
    else if optIs (peekCurrent v) ">" then
      (set_addElementEnd true (set_inElement false (set_closeElement true st)), v)
    else if optIs (peekNext v) ">" then
      (set_hasElementName true (set_closeElement true st),
       set_current (current v - 1) (set_char (Some []) v))
    else
      (set_errorMessage
         (Some (SlashNotClosing (value st)
                  (getTextPosition input (Some (current v)))))
         (set_fatalError true st), v)
  else if isCh ch ">" then
    (set_inElement false (set_closeElement true st), v)
  else if isWs ch then
    (set_closeElement true (set_hasElementName true st), v)
  else (st, v).

(** The [switch (char)] of the child section. *)
Definition childSwitch (st : State) (v : Vars) : Result State :=
  let ch := char v in
  if isCh ch "}" then
    cur <- getCur st ;;
    if inJs cur then
      if (jsBracketCount cur =? 0)%Z then
        Ok (set_addChar false (set_addChild true
              (setCur (fun e => set_closeJs true (set_inJs false e)) st)))
      else Ok (setCur (fun e => set_jsBracketCount (jsBracketCount e - 1) e) st)
    else Ok st
  else if isCh ch "{" then
    cur <- getCur st ;;
    if inJs cur then
      Ok (setCur (fun e => set_jsBracketCount (jsBracketCount e + 1) e) st)
    else
      Ok (set_addChar false (set_addChild true
            (setCur (fun e => set_jsBracketCount 0 (set_inJs true e)) st)))
  else if isCh ch "<" then
    if testLetterGtSlash (peekNext v) && negb (isExpression input (current v))
    then Ok (set_inElement true (set_addChild true st))
    else Ok st
  else Ok st.

(** The [if (state.addChild)] block. *)
Definition addChildBlock (st : State) (v : Vars) : Result (State * Vars) :=
  if addChild st then
    v <- (if isBlank (value st) then
            Ok (if negb (streq (value st) [])
                then push (token e_child_whitespace (value st) (Some (current v))) v
                else v)
          else
            cur <- getCur st ;;
            let isJS := closeJs cur ||
                        (inJs cur && (jsBracketCount cur >? 0)%Z) ||
                        (inJs cur && inElement st) in
            Ok (push (token (if isJS then e_child_js else e_child_text)
                            (value st) (Some (current v))) v)) ;;
    let st := set_value [] (set_addChild false st) in
    cur <- getCur st ;;
    Ok (if closeJs cur
        then setCur (fun e => set_inJs false (set_closeJs false e)) st
        else st, v)
  else Ok (st, v).

(** The [if (state.closeElement) ... else ...] block. *)
Definition closeBlock (st : State) (v : Vars) : State * Vars :=
  if closeElement st then
    let st := if negb (isWs (char v))
              then set_value (value st ++ toStr (char v)) st else st in
    let '(st, v) :=
      if closingElement st then
        let v := push (token e_end (value st) (Some (current v))) v in
        let st := popElement (set_hasElementName false st) in
        (if (elementStack st =? 0)%Z then set_elementClosed true st else st, v)
      else if streq (value st) (str ">") then
        (st, set_current (current v - 1) v)
      else
        (pushElement st, push (token e_start (value st) (Some (current v))) v) in
    let st := set_closingElement false (set_closeElement false (set_value [] st)) in
    if addElementEnd st then
      (set_addElementEnd false st, push (token e_end (value st) None) v)
    else (st, v)
  else
    let st := if addChar st
              then set_value (value st ++ toStr (char v)) st else st in
    (set_addChar true st, v).

Definition initialState (v : Vars) : State :=
  mkState
    (match pos v with
     | Some p => toStr (option_map (fun c => [c]) (charAt input p))
     | None => str "undefined"
     end)
    0 [] None true false false false false false None false false false true
    false false false None false.

(** [tokenizeElement] and its two loops.  Every loop iteration and every
    call takes one unit of [fuel]; the program's own counters
    ([loopCheck], [callCount]) stop it before [fuel] runs out when
    [fuel] is large enough. *)
Fixpoint tokenizeElement (fuel : nat) (v : Vars) (startPosition : Z)
         (firstNode : bool) : Result Vars :=
  match fuel with
  | O => Throw OutOfFuel
  | S fuel' =>
      let v := set_callCount (callCount v + 1) v in
      if (callCount v >? maxRecursiveCalls)%Z then Throw CallCountTokenizer
      else
        let st := initialState v in
        let v := if (current v <? startPosition)%Z && firstNode
                 then push (token js (substring input (current v) startPosition)
                                  (Some (current v))) v
                 else v in
        let v := set_current (startPosition + 1) v in
        r <- elementLoop fuel' st v ;;
        match r with
        | Return v => Ok v
        | Next st v =>
            if fatalError st
            then Throw (match errorMessage st with
                        | Some e => e
                        | None => EngineTypeError
                        end)
            else Ok v
        end
  end

with elementLoop (fuel : nat) (st : State) (v : Vars) : Result Flow :=
  if (current v <? length)%Z then
    match fuel with
    | O => Throw OutOfFuel
    | S fuel' =>
        v <- loopCheck v ;;
        let v := set_char (option_map (fun c => [c]) (charAt input (current v))) v in
        r <- (if inElement st then
                r <- (if hasElementName st then
                        let st := set_value (value st ++ toStr (char v)) st in
                        let v := set_current (current v + 1) v in
                        let st := set_inValue false (set_hasProp false
                                    (set_breakLoop false st)) in
                        propLoop fuel' st v
                      else Ok (Next st v)) ;;
                match r with
                | Return v => Ok (Return v)
                | Next st v => let '(st, v) := tagSwitch st v in Ok (Next st v)
                end
              else
                st <- childSwitch st v ;;
                '(st, v) <- addChildBlock st v ;;
                Ok (Next st v)) ;;
        match r with
        | Return v => Ok (Return v)
        | Next st v =>
            let '(st, v) := closeBlock st v in
            if elementClosed st then Ok (Next st v)
            else elementLoop fuel' st (set_current (current v + 1) v)
        end
    end
  else Ok (Next st v)

with propLoop (fuel : nat) (st : State) (v : Vars) : Result Flow :=
  if (current v <? length)%Z then
    match fuel with
    | O => Throw OutOfFuel
    | S fuel' =>
        v <- loopCheck v ;;
        let v := set_char (option_map (fun c => [c]) (charAt input (current v))) v in
        let v := set_current (current v + 1) v in
        if inPropString st && negb (sameChar (char v) (propStringChar st)) then
          propLoop fuel' (set_value (value st ++ toStr (char v)) st) v
        else
          sw <- propSwitch st v ;;
          match sw with
          | Continue st v => propLoop fuel' st v
          | Break st v =>
              if breakLoop st then breakBlock st v
              else propLoop fuel' (set_value (value st ++ toStr (char v)) st) v
          | Nested st v =>
              v <- tokenizeElement fuel' v (current v) false ;;
              let v := set_char (Some []) v in
              let v := if jsWithElement st
                       then set_current (current v + 1) v else v in
              if breakLoop st then breakBlock st v
              else propLoop fuel' (set_value (value st ++ toStr (char v)) st) v
          end
    end
  else Ok (Next st v).

(** The main loop of [tokenizer]. *)
Fixpoint mainLoop (fuel : nat) (v : Vars) : Result Vars :=
  if (current v <? length)%Z then
    match fuel with
    | O => Throw OutOfFuel
    | S fuel' =>
        v <- loopCheck v ;;
        let v := set_pos (nextElementPos (current v)) v in
        match pos v with
        | None =>
            Ok (push (token js (substring input (current v) length)
                            (Some (current v))) v)
        | Some p =>
            v <- tokenizeElement fuel' v p true ;;
            mainLoop fuel' (set_current (current v + 1) v)
        end
    end
  else Ok v.

End Tokenizer.

(** Enough fuel for every input: each iteration of a loop passes
    [loopCheck], which allows [length] of them, and each call of
    [tokenizeElement] is made from such an iteration. *)
Definition fuelFor (input : jsstr) : nat := 2 * List.length input + 2.

Definition tokenizer (cfg : Config) (input : jsstr) : Result (list Token) :=
  v <- mainLoop input (maxRecursiveCalls cfg) (fuelFor input)
                (mkVars 0 [] None None 0 0) ;;
  Ok (tokens v).

End Lexer.

Definition tokenizer := Lexer.tokenizer.

(* ------------------------------------------------------------------ *)
(** ** Code hints: [// @jsx name] and [// @jsxFrag name] *)

Fixpoint dropWhile (f : ascii -> bool) (s : jsstr) : jsstr :=
  match s with
  | c :: r => if f c then dropWhile f r else s
  | [] => []
  end.

Fixpoint takeWhile (f : ascii -> bool) (s : jsstr) : jsstr :=
  match s with
  | c :: r => if f c then c :: takeWhile f r else []
  | [] => []
  end.

Definition isHintChar (c : ascii) : bool := isLetter c || Ascii.eqb c ".".

(** [\s+ directive \s+ ([a-zA-Z.]+)] matched at the head of [s]; the
    result is the second group. *)
Definition matchHintTail (directive s : jsstr) : option jsstr :=
  match s with
  | c :: _ =>
      if isWhite c then
        let s1 := dropWhile isWhite s in
        if startsWith directive s1 then
          match skipn (List.length directive) s1 with
          | d :: _ as s2 =>
              if isWhite d then
                match takeWhile isHintChar (dropWhile isWhite s2) with
                | [] => None
                | name => Some name
                end
              else None
          | [] => None
          end
        else None
      else None
  | [] => None
  end.

(** The lead-in group of the regular expression (two slashes, or a slash
    with one star, or a slash with two stars) followed by the tail, at the
    head of [s]: the alternatives are tried in their order. *)
Definition matchHintAt (directive s : jsstr) : option jsstr :=
  let alt lead :=
    if startsWith (str lead) s
    then matchHintTail directive (skipn (String.length lead) s)
    else None in
  match alt "//"%string with
  | Some n => Some n
  | None =>
      match alt "/*"%string with
      | Some n => Some n
      | None => alt "/**"%string
      end
  end.

(** [regex.exec(input)] on a fresh regular expression: the leftmost
    match. *)
Fixpoint execHint (directive s : jsstr) : option jsstr :=
  match matchHintAt directive s with
  | Some n => Some n
  | None =>
      match s with
      | [] => None
      | _ :: r => execHint directive r
      end
  end.

(* ------------------------------------------------------------------ *)
(** ** The abstract syntax tree *)

(** The value of [prop.value]: [null], a string, or an object (a node,
    or the array of nodes that [walk] builds for JS with elements). *)
Inductive PropValue (N : Type) :=
| PNull
| PString (s : jsstr)
| PObject (n : N).
Arguments PNull {N}.
Arguments PString {N} s.
Arguments PObject {N} n.

Record ElementProp (N : Type) := mkProp {
  prop_name : jsstr;
  prop_value : PropValue N;
  prop_pos : option Z
}.
Arguments mkProp {N}.
Arguments prop_name {N}.
Arguments prop_value {N}.
Arguments prop_pos {N}.

(** An entry of [node.children]: [{type, value, pos}] whose value is a
    string (or [undefined]), or [{type: e_start, value: node, pos}]. *)
Inductive Child (N : Type) :=
| ChildValue (type : TokenType) (value : option jsstr) (pos : option Z)
| ChildElement (value : N) (pos : option Z).
Arguments ChildValue {N}.
Arguments ChildElement {N}.

Definition child_type {N} (c : Child N) : TokenType :=
  match c with
  | ChildValue t _ _ => t
  | ChildElement _ _ => e_start
  end.

#[local] Unset Elimination Schemes.
Inductive Node :=
| Program (body : list Node)
| JsChunk (value : jsstr) (pos : option Z) (stackCount : Z)
| CreateElement (name : jsstr) (isClass : bool)
                (props : list (ElementProp Node))
                (children : list (Child Node))
                (pos : option Z) (stackCount : Z)
| TokenObj (t : Token)             (* a token object kept in a node array *)
| NodeArray (nodes : list Node).   (* the array [walk] returns for JS with elements *)
#[local] Set Elimination Schemes.

(* ------------------------------------------------------------------ *)
(** ** Compiler step 3: parser *)

Module Parser.

(** The variables of [parser] that [walk] updates. *)
Record Vars := mkVars {
  current : nat;
  callCount : Z;
  e_start_count : Z;
  e_end_count : Z
}.

Definition set_current (v : nat) (r : Vars) : Vars :=
  mkVars v (callCount r) (e_start_count r) (e_end_count r).
Definition set_callCount (v : Z) (r : Vars) : Vars :=
  mkVars (current r) v (e_start_count r) (e_end_count r).
Definition set_e_start_count (v : Z) (r : Vars) : Vars :=
  mkVars (current r) (callCount r) v (e_end_count r).
Definition set_e_end_count (v : Z) (r : Vars) : Vars :=
  mkVars (current r) (callCount r) (e_start_count r) v.

(** [token.value.replace("<", ...).replace("/", ...).replace(">", ...)],
    each with the empty string. *)
Definition tagName (v : jsstr) : jsstr :=
  removeFirst ">" (removeFirst "/" (removeFirst "<" v)).

Definition computeIsClass (elName : jsstr) : bool :=
  match elName with
  | firstChar :: _ => inRange "A" "Z" firstChar
  | [] => false
  end || includes (str ".") elName.

(** The value a [e_child_js] child gets. *)
Definition childJsValue (v : jsstr) : jsstr :=
  let value := trim v in
  let value := if startsWith (str "{") value then skipn 1 value else value in
  if endsWith value (str "}") then removelast value else value.

(** The element node under construction in [walk]. *)
Record Element := mkElement {
  name : jsstr;
  isClass : bool;
  props : list (ElementProp Node);
  children : list (Child Node);
  pos : option Z;
  stackCount : Z
}.

Definition toNode (n : Element) : Node :=
  CreateElement (name n) (isClass n) (props n) (children n) (pos n) (stackCount n).

Definition addProp (p : ElementProp Node) (n : Element) : Element :=
  mkElement (name n) (isClass n) (props n ++ [p]) (children n) (pos n) (stackCount n).

Definition addChild (c : Child Node) (n : Element) : Element :=
  mkElement (name n) (isClass n) (props n) (children n ++ [c]) (pos n) (stackCount n).

Section Walk.

Variable tokens : list Token.
Variable input : jsstr.
Variable maxRecursiveCalls : Z.
Variable pragmaFrag : jsstr.

Let tokenCount : nat := List.length tokens.

Definition nextTokenType (v : Vars) : option TokenType :=
  option_map tok_type (nth_error tokens (current v)).

Definition positionOfToken (t : Token) : jsstr :=
  getTextPosition input (tok_pos t).

(** [walk] with the loop of its element branch ([elementLoop]) and the
    loop of its JS-with-elements branch ([nodesLoop]).  Every call and
    every loop iteration takes one unit of [fuel]. *)
Fixpoint walk (fuel : nat) (v : Vars) (stackCount : Z)
         (startingToken : option TokenType) : Result (Node * Vars) :=
  match fuel with
  | O => Throw OutOfFuel
  | S fuel' =>
      let v := set_callCount (callCount v + 1) v in
      if (callCount v >? maxRecursiveCalls)%Z then Throw CallCountParser
      else
        match nth_error tokens (current v) with
        | None => Throw EngineTypeError
        | Some token =>
            let v := set_current (S (current v)) v in
            match tok_type token with
            | js => Ok (JsChunk (tok_value token) (tok_pos token) stackCount, v)
            | e_start =>
                let v := set_e_start_count (e_start_count v + 1) v in
                let elName := tagName (tok_value token) in
                let elName := if streq elName [] then pragmaFrag else elName in
                let node := mkElement elName (computeIsClass elName) [] []
                                      (tok_pos token) stackCount in
                '(node, v) <- elementLoop fuel' v node None ;;
                Ok (toNode node, v)
            | e_child_js_start =>
                match startingToken with
                | Some e_child_js_start => nodesLoop fuel' v stackCount token [TokenObj token]
                | _ => Throw (TokensOutOfOrder2 (tok_type token) (tok_index token)
                                (positionOfToken token))
                end
            | _ => Throw (TokensOutOfOrder2 (tok_type token) (tok_index token)
                            (positionOfToken token))
            end
        end
  end

with elementLoop (fuel : nat) (v : Vars) (node : Element) (value : option jsstr)
     : Result (Element * Vars) :=
  match nth_error tokens (current v) with
  | None => Ok (node, v)
  | Some token =>
      match fuel with
      | O => Throw OutOfFuel
      | S fuel' =>
          let v := set_current (S (current v)) v in
          match tok_type token with
          | e_prop =>
              '(propValue, v) <-
                 match nextTokenType v with
                 | Some e_value | Some js =>
                     match nth_error tokens (current v) with
                     | Some t => Ok (PString (tok_value t), set_current (S (current v)) v)
                     | None => Throw EngineTypeError
                     end
                 | Some e_start =>
                     '(n, v) <- walk fuel' v (stackCount node + 1) None ;;
                     Ok (PObject n, v)
                 | Some e_child_js_start =>
                     '(n, v) <- walk fuel' v (stackCount node + 1) (Some e_child_js_start) ;;
                     Ok (PObject n, v)
                 | _ => Ok (PNull, v)
                 end ;;
              let prop := mkProp (tok_value token) propValue (tok_pos token) in
              let node := if negb (streq (trim (tok_value token)) [])
                          then addProp prop node else node in
              elementLoop fuel' v node value
          | e_child_js =>
              if negb (streq (trim (tok_value token)) []) then
                let value := childJsValue (tok_value token) in
                elementLoop fuel' v
                  (addChild (ChildValue (tok_type token) (Some value) (tok_pos token)) node)
                  (Some value)
              else elementLoop fuel' v node value
          | e_child_js_start | e_child_js_end =>
              elementLoop fuel' v
                (addChild (ChildValue (tok_type token) value (tok_pos token)) node) value
          | e_child_text =>
              if negb (streq (trim (tok_value token)) []) then
                elementLoop fuel' v
                  (addChild (ChildValue (tok_type token) (Some (tok_value token))
                                        (tok_pos token)) node) value
              else elementLoop fuel' v node value
          | e_child_whitespace =>
              elementLoop fuel' v
                (addChild (ChildValue (tok_type token) (Some (tok_value token))
                                      (tok_pos token)) node) value
          | e_end =>
              let endName := tagName (tok_value token) in
              if negb (streq endName (name node)) && negb (streq endName []) then
                Throw (MismatchedTags endName (name node) (tok_index token)
                         (positionOfToken token))
              else Ok (node, set_e_end_count (e_end_count v + 1) v)
          | e_start =>
              let v := set_current (pred (current v)) v in
              '(n, v) <- walk fuel' v (stackCount node + 1) None ;;
              elementLoop fuel' v (addChild (ChildElement n (tok_pos token)) node) value
          | _ =>
              Throw (TokensOutOfOrder1 (tok_type token) (tok_index token)
                       (positionOfToken token))
          end
      end
  end

with nodesLoop (fuel : nat) (v : Vars) (stackCount : Z) (token : Token)
               (nodes : list Node) : Result (Node * Vars) :=
  match nth_error tokens (current v) with
  | None =>
      Throw (TokensOutOfOrder2 (tok_type token) (tok_index token)
               (positionOfToken token))
  | Some token =>
      match fuel with
      | O => Throw OutOfFuel
      | S fuel' =>
          let v := set_current (S (current v)) v in
          match tok_type token with
          | e_start =>
              let v := set_current (pred (current v)) v in
              '(n, v) <- walk fuel' v (stackCount + 1) None ;;
              nodesLoop fuel' v stackCount token (nodes ++ [n])
          | e_child_js_end => Ok (NodeArray (nodes ++ [TokenObj token]), v)
          | _ =>
              Throw (UnexpectedInJsChildProp (tok_type token) (tok_index token)
                       (positionOfToken token))
          end
      end
  end.

(** [while (current < tokenCount) { ast.body.push(walk(0)); }] *)
Fixpoint bodyLoop (fuel : nat) (v : Vars) (body : list Node)
  : Result (list Node * Vars) :=
  match nth_error tokens (current v) with
  | None => Ok (body, v)
  | Some _ =>
      match fuel with
      | O => Throw OutOfFuel
      | S fuel' =>
          '(n, v) <- walk fuel' v 0 None ;;
          bodyLoop fuel' v (body ++ [n])
      end
  end.

End Walk.

(** [for (n = 0; n < tokenCount; n++) tokens[n].index = n]. *)
Fixpoint setIndex (n : nat) (tokens : list Token) : list Token :=
  match tokens with
  | [] => []
  | t :: r => mkToken (tok_type t) (tok_value t) (tok_pos t) (Some n) :: setIndex (S n) r
  end.

(** [parser(tokens, input)]: the result, and the token array as the call
    leaves it. *)
Definition parser (cfg : Config) (tokens : list Token) (input : jsstr)
  : Result Node * list Token :=
  let frag := match execHint (str "@jsxFrag") input with
              | Some m => m
              | None => pragmaFrag cfg
              end in
  let tokens := setIndex 0 tokens in
  let result :=
    r <- bodyLoop tokens input (maxRecursiveCalls cfg) frag
                  (2 * List.length tokens + 1) (mkVars 0 0 0 0) [] ;;
    let '(body, v) := r in
    if negb (e_start_count v =? e_end_count v)%Z
    then Throw UnbalancedElements
    else Ok (Program body) in
  (result, tokens).

End Parser.

Definition parser := Parser.parser.

(* ------------------------------------------------------------------ *)
(** ** Compiler step 4: codeGenerator *)

Module Generator.

(** What an entry of [childJs] can hold: a string, [undefined] (the
    value of a child pushed as it is), or the [NaN] that [+=] makes of
    two [undefined]. *)
Inductive JsVal :=
| VStr (s : jsstr)
| VUndefined
| VNaN.

Definition valToStr (x : JsVal) : jsstr :=
  match x with
  | VStr s => s
  | VUndefined => str "undefined"
  | VNaN => str "NaN"
  end.

(** [a + b]. *)
Definition jsPlus (a b : JsVal) : JsVal :=
  match a, b with
  | VStr _, _ | _, VStr _ => VStr (valToStr a ++ valToStr b)
  | _, _ => VNaN
  end.

Definition ofOption (x : option jsstr) : JsVal :=
  match x with
  | Some s => VStr s
  | None => VUndefined
  end.

(** [array.join(sep)]: [undefined] joins as the empty string. *)
Definition joinItem (x : JsVal) : jsstr :=
  match x with
  | VStr s => s
  | VUndefined => []
  | VNaN => str "NaN"
  end.

Fixpoint joinWith (sep : jsstr) (l : list JsVal) : jsstr :=
  match l with
  | [] => []
  | [x] => joinItem x
  | x :: r => joinItem x ++ sep ++ joinWith sep r
  end.

(** [childJs[childJs.length - 1] += x]; on an empty array the write goes
    to the property [-1], which neither [length] nor [join] see. *)
Fixpoint appendLast (l : list JsVal) (x : JsVal) : list JsVal :=
  match l with
  | [] => []
  | [y] => [jsPlus y x]
  | y :: r => y :: appendLast r x
  end.

(** What the first loop over [node.children] finds. *)
Record Kinds := mkKinds {
  hasChildText : bool;
  hasChildJs : bool;
  hasChildEl : bool;
  childElCount : Z;
  allChildJsContainsExpressions : bool
}.

Fixpoint classify (children : list (Child Node)) (k : Kinds) : Result Kinds :=
  match children with
  | [] => Ok k
  | c :: r =>
      match c with
      | ChildValue e_child_js nodeValue _
      | ChildValue e_child_js_start nodeValue _ =>
          let plain := match nodeValue with
                       | Some s => negb (includes (str "(") s) && negb (includes (str ")") s)
                       | None => false
                       end in
          classify r (mkKinds (hasChildText k) true (hasChildEl k) (childElCount k)
                              (if plain then false else allChildJsContainsExpressions k))
      | ChildValue e_child_text _ _ =>
          classify r (mkKinds true (hasChildJs k) (hasChildEl k) (childElCount k)
                              (allChildJsContainsExpressions k))
      | ChildValue e_start _ _ | ChildElement _ _ =>
          classify r (mkKinds (hasChildText k) (hasChildJs k) true (childElCount k + 1)
                              (allChildJsContainsExpressions k))
      | ChildValue e_child_whitespace _ _ | ChildValue e_child_js_end _ _ =>
          classify r k
      | ChildValue t _ _ => Throw (UnhandledChildType t)
      end
  end.

(** The variables the second loop over [node.children] updates. *)
Record Emit := mkEmit {
  childJs : list JsVal;
  startsWithJs : bool;
  lastIndex : option nat;
  elCount : Z;
  lastElAddedAsJs : bool
}.

(** [lastValue.endsWith(...)] for the five endings that make the next
    element a part of the JS before it. *)
Definition endsAsOperand (lastValue : jsstr) : bool :=
  endsWith lastValue (str "&&") || endsWith lastValue (str "?") ||
  endsWith lastValue (str "(") || endsWith lastValue (str ":") ||
  endsWith lastValue (str " return").

Section Element.

(** The host's HTML decoding of a text ([div.innerHTML = s;
    div.textContent]); the DOM is not part of the program. *)
Variable htmlDecode : jsstr -> jsstr.

(** The recursive [generateCode]. *)
Variable gen : Node -> bool -> Result (jsstr * Node).

(** [while (propValue.length > 0) value2 += generateCode(propValue.shift(), true)]. *)
Fixpoint shiftLoop (propValue : list Node) (value2 : jsstr) : Result jsstr :=
  match propValue with
  | [] => Ok value2
  | n :: r =>
      '(c, _) <- gen n true ;;
      shiftLoop r (value2 ++ c)
  end.

(** The text of a prop value, and the value as the call leaves it. *)
Definition propValueCode (pv : PropValue Node) : Result (jsstr * PropValue Node) :=
  match pv with
  | PNull => Ok (str "true", pv)
  | PString s => Ok (s, pv)
  | PObject n =>
      let other := '(c, n) <- gen n true ;; Ok (c, PObject n) in
      match n with
      | NodeArray l =>
          match l with
          | TokenObj t :: _ =>
              if TokenType_eqb (tok_type t) e_child_js_start then
                value2 <- shiftLoop l [] ;;
                Ok (value2, PObject (NodeArray []))
              else other
          | _ => other
          end
      | _ => other
      end
  end.

(** The [for] loop over [node.props]. *)
Fixpoint propsLoop (props : list (ElementProp Node)) (propJs : list jsstr)
  : Result (list jsstr * list (ElementProp Node)) :=
  match props with
  | [] => Ok (propJs, [])
  | p :: r =>
      '(propValue, pv) <- propValueCode (prop_value p) ;;
      let propName := trim (prop_name p) in
      let propName := if includes (str "-") propName
                      then jsonStringify propName else propName in
      let sep := match r with [] => [] | _ :: _ => str ", " end in
      let item :=
        if streq propValue (str "true") && Lexer.testSpread propName
        then skipn 1 (removelast propName) ++ sep
        else propName ++ str ": " ++ propValue ++ sep in
      '(propJs, r) <- propsLoop r (propJs ++ [item]) ;;
      Ok (propJs, mkProp (prop_name p) pv (prop_pos p) :: r)
  end.

Variable children : list (Child Node).
Variable kinds : Kinds.

Let childCount : nat := List.length children.

(** One iteration of the second loop over [node.children], at index [m]. *)
Definition emitChild (m : nat) (c : Child Node) (e : Emit)
  : Result (Emit * Child Node) :=
  let next e := mkEmit (childJs e) (startsWithJs e) (Some m) (elCount e)
                       (lastElAddedAsJs e) in
  let onElement (code : bool -> Result (jsstr * Child Node)) :=
    skipElIndent <-
      match lastIndex e with
      | Some i =>
          match nth_error children i with
          | Some last => Ok (TokenType_eqb (child_type last) e_child_js)
          | None => Throw EngineTypeError
          end
      | None => Ok false
      end ;;
    asJs <-
      (if skipElIndent then
         match lastIndex e with
         | Some i =>
             match nth_error children i with
             | Some (ChildValue _ (Some v) _) => Ok (endsAsOperand (trim v))
             | _ => Throw EngineTypeError
             end
         | None => Ok false
         end
       else Ok false) ;;
    '(text, c) <- code skipElIndent ;;
    if asJs then
      Ok (next (mkEmit (appendLast (childJs e) (VStr text)) (startsWithJs e)
                       (lastIndex e) (elCount e - 1) true), c)
    else
      Ok (next (mkEmit (childJs e ++ [VStr text]) (startsWithJs e)
                       (lastIndex e) (elCount e) false), c) in
  match c with
  | ChildValue e_child_js value _ | ChildValue e_child_js_start value _ =>
      if lastElAddedAsJs e then
        Ok (next (mkEmit (appendLast (childJs e) (ofOption value)) (startsWithJs e)
                         (lastIndex e) (elCount e) (lastElAddedAsJs e)), c)
      else
        let childJs' := childJs e ++ [ofOption value] in
        Ok (next (mkEmit childJs'
                         (if negb (startsWithJs e) && (List.length childJs' =? 1)%nat
                          then true else startsWithJs e)
                         (lastIndex e) (elCount e) (lastElAddedAsJs e)), c)
  | ChildValue e_child_text value _ =>
      match value with
      | None => Throw EngineTypeError
      | Some nodeValue =>
          let nodeValue := if includes (str "&") nodeValue
                           then htmlDecode nodeValue else nodeValue in
          let text :=
            if (childCount =? 1)%nat then nodeValue
            else if (m =? childCount - 1)%nat then trimEnd nodeValue
            else if (m =? 0)%nat then trimStart nodeValue
            else nodeValue in
          Ok (next (mkEmit (childJs e ++ [VStr (jsonStringify text)]) (startsWithJs e)
                           (lastIndex e) (elCount e) (lastElAddedAsJs e)), c)
      end
  | ChildValue e_child_js_end value _ =>
      Ok (next (mkEmit (childJs e ++ [ofOption value]) (startsWithJs e)
                       (lastIndex e) (elCount e) (lastElAddedAsJs e)), c)
  | ChildElement n p =>
      onElement (fun skipElIndent =>
                   '(text, n) <- gen n skipElIndent ;;
                   Ok (text, ChildElement n p))
  | ChildValue e_start value _ =>
      onElement (fun _ =>
                   match value with
                   | Some _ => Throw (UnhandledAstType None)
                   | None => Throw EngineTypeError
                   end)
  | ChildValue e_child_whitespace value _ =>
      if (hasChildJs kinds || hasChildText kinds) &&
         negb ((m =? 0)%nat || (m =? childCount - 1)%nat)
      then
        Ok (mkEmit (childJs e ++ [match value with
                                  | Some s => VStr (jsonStringify s)
                                  | None => VUndefined
                                  end])
                   (startsWithJs e) (lastIndex e) (elCount e) false, c)
      else Ok (e, c)
  | ChildValue t _ _ => Throw (UnhandledChildType t)
  end.

(** The second loop, over the children from index [m] on. *)
Fixpoint emitLoop (m : nat) (rest : list (Child Node)) (e : Emit)
  : Result (Emit * list (Child Node)) :=
  match rest with
  | [] => Ok (e, [])
  | c :: r =>
      '(e, c) <- emitChild m c e ;;
      '(e, r) <- emitLoop (S m) r e ;;
      Ok (e, c :: r)
  end.

End Element.


Fixpoint joinStr (sep : jsstr) (l : list jsstr) : jsstr :=
  match l with
  | [] => []
  | [x] => x
  | x :: r => x ++ sep ++ joinStr sep r
  end.

Definition useStrictDouble : jsstr := [dquote] ++ str "use strict" ++ [dquote].
Definition useStrictSingle : jsstr := str "'use strict'".
Definition useStrictPrefix : jsstr := useStrictDouble ++ str ";" ++ [newline].

Section GenerateCode.

Variable htmlDecode : jsstr -> jsstr.
Variable createElement : jsstr.
Variable addUseStrict : bool.

(** The start of an element's text, with its indent. *)
Definition elementStart (name : jsstr) (isClass : bool) (stackCount : Z)
           (skipIndent : bool) : jsstr :=
  let js := createElement ++ str "(" ++
            (if isClass then name else jsonStringify name) ++ str ", " in
  if (stackCount >? 0)%Z then
    if negb skipIndent then
      [newline] ++ repeatSpace 8 ++ repeatSpace (Z.to_nat (stackCount * 4)) ++ js
    else str " " ++ js
  else js.

(** The text between the braces of the props object. *)
Definition propsText (propJs : list jsstr) (stackCount : Z) (skipIndent : bool) : jsstr :=
  let propTextLen := fold_left (fun total item => total + List.length item) propJs 0 in
  if (80 <? propTextLen)%nat then
    let propIndent :=
      [newline] ++
      (if negb skipIndent
       then repeatSpace 12 ++ repeatSpace (Z.to_nat (stackCount * 4)) else []) in
    propIndent ++ joinStr propIndent propJs
  else joinStr [] propJs.

(** The last step of an element: the children's texts joined. *)
Definition childrenText (kinds : Kinds) (e : Emit) : jsstr :=
  match childJs e with
  | [] => []
  | _ :: _ =>
      if negb (hasChildText kinds) && hasChildJs kinds && hasChildEl kinds &&
         startsWithJs e && (elCount e =? 1)%Z &&
         allChildJsContainsExpressions kinds
      then str ", " ++ joinWith [] (childJs e)
      else str ", " ++ joinWith (str ", ") (childJs e)
  end.

(** [generateCode(node, skipIndent)]: the text, and the node as the call
    leaves it (the arrays among its prop values are emptied). *)
Fixpoint generateCode (node : Node) (skipIndent : bool) {struct node}
  : Result (jsstr * Node) :=
  match node with
  | Program body =>
      r <- (fix mapBody (l : list Node) : Result (list jsstr * list Node) :=
              match l with
              | [] => Ok ([], [])
              | n :: r =>
                  '(c, n) <- generateCode n false ;;
                  '(cs, r) <- mapBody r ;;
                  Ok (c :: cs, n :: r)
              end) body ;;
      let '(codes, body) := r in
      let generatedJs := joinStr [] codes in
      if addUseStrict && negb (includes useStrictDouble generatedJs) &&
         negb (includes useStrictSingle generatedJs)
      then Ok (useStrictPrefix ++ generatedJs, Program body)
      else Ok (generatedJs, Program body)
  | JsChunk value _ _ => Ok (value, node)
  | TokenObj t =>
      match tok_type t with
      | js | e_child_js_start | e_child_js_end => Ok (tok_value t, node)
      | ty => Throw (UnhandledAstType (Some ty))
      end
  | NodeArray _ => Throw (UnhandledAstType None)
  | CreateElement name isClass props children pos stackCount =>
      let text := elementStart name isClass stackCount skipIndent in
      r <- match props with
           | [] => Ok (text ++ str "null", [])
           | _ :: _ =>
               '(propJs, props) <- propsLoop generateCode props [] ;;
               Ok (text ++ str "{" ++ propsText propJs stackCount skipIndent ++ str "}",
                   props)
           end ;;
      let '(text, props) := r in
      kinds <- classify children (mkKinds false false false 0 true) ;;
      r <- emitLoop htmlDecode generateCode children kinds 0 children
                    (mkEmit [] false None (childElCount kinds) false) ;;
      let '(e, children) := r in
      Ok (text ++ childrenText kinds e ++ str ")",
          CreateElement name isClass props children pos stackCount)
  end.

End GenerateCode.

(** [codeGenerator(ast, input)]. *)
Definition codeGenerator (htmlDecode : jsstr -> jsstr) (cfg : Config)
           (ast : Node) (input : jsstr) : Result (jsstr * Node) :=
  let createElement := match execHint (str "@jsx") input with
                       | Some m => m
                       | None => pragma cfg
                       end in
  generateCode htmlDecode createElement (addUseStrict cfg) ast false.

End Generator.

Definition codeGenerator := Generator.codeGenerator.

(* ------------------------------------------------------------------ *)
(** ** compile *)

Definition compile (htmlDecode : jsstr -> jsstr) (cfg : Config) (input : jsstr)
  : Result jsstr :=
  let newInput := removeComments input in
  tokens <- tokenizer cfg newInput ;;
  let '(ast, _) := parser cfg tokens input in
  ast <- ast ;;
  r <- codeGenerator htmlDecode cfg ast input ;;
  Ok (fst r).

(* ------------------------------------------------------------------ *)
(** ** Notions used to state the properties *)

Module CommentsSpec.

Import Comments.

(** The scanner of [removeComments] is inside a comment. *)
Definition inComment (st : State) : bool :=
  inCommentReact st || inCommentSingleLine st || inCommentMultiLine st.

(** The loop variables before the first iteration. *)
Definition start (input : jsstr) : Loop :=
  mkLoop initialState 0 (repeat None (List.length input)).


(** What becomes of a character [c]: inside a comment region a space,
    unless it is a newline; outside, itself. *)
Definition stripped (inRegion : bool) (c : ascii) : ascii :=
  if inRegion then (if Ascii.eqb c newline then newline else space) else c.

End CommentsSpec.

Module LexerSpec.




(** The characters after which [isExpression] takes a ["<"] for a
    less-than sign. *)
Definition isOperator (c : ascii) : bool :=
  Ascii.eqb c ")" || Ascii.eqb c "&" || Ascii.eqb c "|" ||
  Ascii.eqb c "?" || Ascii.eqb c ";".

End LexerSpec.

Module ParserSpec.

(** The number of tokens of one type. *)
Fixpoint countOf (t : TokenType) (l : list TokenType) : Z :=
  match l with
  | [] => 0
  | x :: r => ((if TokenType_eqb x t then 1 else 0) + countOf t r)%Z
  end.

(** The nesting depth after the tokens [l], starting at depth [d]: an
    [e_start] opens a level and an [e_end] closes the innermost open one;
    [None] when an [e_end] has no level to close. *)
Fixpoint nesting (d : nat) (l : list TokenType) : option nat :=
  match l with
  | [] => Some d
  | e_start :: r => nesting (S d) r
  | e_end :: r =>
      match d with
      | O => None
      | S d' => nesting d' r
      end
  | _ :: r => nesting d r
  end.

(** Every [e_start] is closed by exactly one [e_end] at its nesting level,
    and every [e_end] closes one. *)
Definition balanced (tokens : list Token) : Prop :=
  nesting 0 (map tok_type tokens) = Some 0.

(** The outcome of the walk over all tokens, before the final check of
    [parser]. *)
Definition walkAll (cfg : Config) (tokens : list Token) (input : jsstr)
  : Result (list Node * Parser.Vars) :=
  let frag := match execHint (str "@jsxFrag") input with
              | Some m => m
              | None => pragmaFrag cfg
              end in
  Parser.bodyLoop (Parser.setIndex 0 tokens) input (maxRecursiveCalls cfg) frag
                  (2 * List.length (Parser.setIndex 0 tokens) + 1)
                  (Parser.mkVars 0 0 0 0) [].

(** A tag name: a text without the three characters that [tagName]
    removes. *)
Definition plainName (s : jsstr) : Prop :=
  ~ In "<"%char s /\ ~ In "/"%char s /\ ~ In ">"%char s.

End ParserSpec.

Module GeneratorSpec.

(** A prop value that [generateCode] takes for JS with elements: an array
    whose first entry is a [e_child_js_start] token. *)
Definition isJsWithElements (n : Node) : bool :=
  match n with
  | NodeArray (TokenObj t :: _) => TokenType_eqb (tok_type t) e_child_js_start
  | _ => false
  end.

(** A tree after code generation: the arrays of JS with elements among the
    prop values are empty, and nothing else is changed. *)
Fixpoint drained (n : Node) : Node :=
  match n with
  | Program body => Program (map drained body)
  | CreateElement name isClass props children pos stackCount =>
      CreateElement name isClass
        (map (fun p =>
                mkProp (prop_name p)
                       (match prop_value p with
                        | PObject v =>
                            if isJsWithElements v
                            then PObject (NodeArray [])
                            else PObject (drained v)
                        | v => v
                        end)
                       (prop_pos p)) props)
        (map (fun c =>
                match c with
                | ChildElement v p => ChildElement (drained v) p
                | ChildValue _ _ _ => c
                end) children)
        pos stackCount
  | _ => n
  end.

End GeneratorSpec.

(* ================================================================== *)
(** * Properties *)

Lemma streq_spec a b : reflect (a = b) (streq a b).
Proof. unfold streq. destruct (list_eq_dec ascii_dec a b); constructor; assumption. Qed.

Example removeComments_ex1 :
  removeComments (str "a // b
c /* d */ <p>{/* e */}</p> '//' x") =
  str "a     
c         <p>         </p> '//' x".
Proof. vm_compute. reflexivity. Qed.

(* ------------------------------------------------------------------ *)
(** ** removeComments keeps every offset *)

Module CommentsFacts.

Import Comments CommentsSpec.

Lemma write_length {A} (i : nat) (v : A) arr :
  i < length arr -> length (write i v arr) = length arr.
Proof.
  revert arr; induction i as [|i IH]; intros [|x r] H; simpl in *; try lia.
  rewrite IH; lia.
Qed.

Lemma write_firstn {A} (i : nat) (v : A) arr :
  i < length arr -> firstn (S i) (write i v arr) = firstn i arr ++ [Some v].
Proof.
  revert arr; induction i as [|i IH]; intros [|x r] H; simpl in *; try lia.
  - reflexivity.
  - f_equal. apply IH. lia.
Qed.

Lemma firstn_snoc {A} (l : list A) n c :
  nth_error l n = Some c -> firstn (S n) l = firstn n l ++ [c].
Proof.
  revert l; induction n as [|n IH]; intros [|x r] H; simpl in *; try discriminate.
  - now inversion H.
  - f_equal. now apply IH.
Qed.

Lemma nth_error_skipn {A} (l : list A) n i :
  nth_error (skipn n l) i = nth_error l (n + i).
Proof.
  revert l; induction n as [|n IH]; intros [|x r]; simpl; auto.
  now destruct i.
Qed.

Lemma join_map_Some out : join (map Some out) = out.
Proof. induction out; simpl; congruence. Qed.

Section Invariant.

Variable input : jsstr.

(** A character of the output is the input's or a space that replaces a
    character other than a newline. *)
Definition kept (c c' : ascii) : Prop := exists k, c' = stripped k c.

(** The first [cur] cells of the array hold [out]. *)
Definition filled (cur : nat) (arr : list (option ascii)) (out : jsstr) : Prop :=
  cur = length out /\
  firstn cur arr = map Some out /\
  length arr = length input /\
  cur <= length input /\
  Forall2 kept (firstn cur input) out.

(** From [cur] to [cur'] the cells were filled with characters
    [stripped k]. *)
Definition segment (k : bool) (cur : nat) (out : jsstr)
           (cur' : nat) (arr' : list (option ascii)) : Prop :=
  exists delta,
    filled cur' arr' (out ++ delta) /\
    Forall2 (fun c c' => c' = stripped k c)
            (firstn (length delta) (skipn cur input)) delta.

Lemma segment_nil k cur arr out :
  filled cur arr out -> segment k cur out cur arr.
Proof.
  intros H. exists []. rewrite app_nil_r. split; [assumption|]. constructor.
Qed.

Lemma segment_write k cur out cur1 arr1 cur2 c c' :
  segment k cur out cur1 arr1 ->
  cur = length out ->
  nth_error input cur1 = Some c ->
  c' = stripped k c ->
  cur2 = S cur1 ->
  segment k cur out cur2 (write cur1 c' arr1).
Proof.
  intros (delta & (Hlen & Hfirst & Harr & Hle & Hkept) & Hseg) Hcur Hc Hc' ->.
  assert (Hlt : cur1 < length input) by (apply nth_error_Some; congruence).
  exists (delta ++ [c']). rewrite app_assoc. split.
  - repeat split.
    + rewrite length_app, <- Hlen. simpl. lia.
    + rewrite write_firstn by lia. rewrite Hfirst.
      rewrite (map_app _ (out ++ delta)). reflexivity.
    + rewrite write_length; lia.
    + lia.
    + rewrite (firstn_snoc _ _ _ Hc).
      apply Forall2_app; [assumption|]. constructor; [|constructor]. now exists k.
  - rewrite length_app. simpl. rewrite Nat.add_1_r.
    rewrite length_app in Hlen.
    rewrite (firstn_snoc _ _ c).
    + apply Forall2_app; [assumption|]. constructor; [assumption|constructor].
    + rewrite nth_error_skipn. rewrite <- Hc. f_equal. lia.
Qed.

Lemma peekNext_is cur a :
  optIs (peekNext input cur) a = true -> nth_error input (cur + 1) = Some a.
Proof.
  unfold peekNext, optIs. destruct (cur + 1 <? length input); [|discriminate].
  destruct (nth_error input (cur + 1)); [|discriminate].
  intros H. apply Ascii.eqb_eq in H. congruence.
Qed.

Lemma peekNext2_is cur a b :
  opt2Is (peekNext2 input cur) a b = true ->
  nth_error input (cur + 1) = Some a /\ nth_error input (cur + 2) = Some b.
Proof.
  unfold peekNext2, opt2Is. destruct (cur + 2 <? length input); [|discriminate].
  destruct (nth_error input (cur + 1)); [|discriminate].
  destruct (nth_error input (cur + 2)); [|discriminate].
  intros H. apply andb_true_iff in H as [H1 H2].
  apply Ascii.eqb_eq in H1, H2. now subst.
Qed.

Ltac facts :=
  repeat match goal with
    | H : (_ && _) = true |- _ => apply andb_true_iff in H; destruct H
    | H : Ascii.eqb ?x _ = true |- _ => apply Ascii.eqb_eq in H; try subst x
    | H : negb _ = true |- _ => apply negb_true_iff in H
    | H : negb _ = false |- _ => apply negb_false_iff in H
    | H : optIs (peekNext _ _) _ = true |- _ => apply peekNext_is in H
    | H : opt2Is (peekNext2 _ _) _ _ = true |- _ => apply peekNext2_is in H; destruct H
    end.

#[local] Arguments stripped : simpl never.

Ltac segments :=
  first
    [ eapply segment_write;
      [ segments
      | eassumption
      | first [ eassumption | match goal with H : nth_error _ _ = Some ?c |- _ => exact H end ]
      | unfold stripped; simpl;
        repeat match goal with H : Ascii.eqb _ _ = _ |- _ => rewrite H end;
        try reflexivity; try (symmetry; apply Ascii.eqb_eq; assumption)
      | lia ]
    | eapply segment_nil; eassumption ].

Lemma body_segment (l : Loop) (char : ascii) (out : jsstr) :
  filled (current l) (newInput l) out ->
  nth_error input (current l) = Some char ->
  let l' := body input char l in
  segment (inComment (state l) || inComment (state l'))
          (current l) out (current l') (newInput l') /\
  current l < current l'.
Proof.
  intros Hfilled Hchar.
  destruct l as [[a b c d e f g h] cur arr].
  assert (Hcur : cur = length out) by apply Hfilled.
  cbn [current newInput state] in *.
  unfold body, plain, finish, inComment; simpl.
  destruct (optIs (peekNext input cur) "/") eqn:Eslash;
    destruct (optIs (peekNext input cur) "*") eqn:Estar;
    (destruct a; [|destruct b; [|destruct c]]); simpl;
    repeat match goal with
      | |- context [if ?x then _ else _] =>
          let E := fresh "E" in destruct x eqn:E; simpl
      end;
    facts; try discriminate;
    (split; [ segments | lia ]).
Qed.

Lemma filled_start : filled 0 (newInput (start input)) [].
Proof.
  unfold filled, start. simpl. rewrite repeat_length.
  repeat split; try lia. constructor.
Qed.




Lemma filled_all (arr : list (option ascii)) (out : jsstr) :
  filled (length input) arr out ->
  join arr = out /\ length out = length input /\ Forall2 kept input out.
Proof.
  intros (Hlen & Hfirst & Harr & _ & Hkept).
  rewrite <- Harr, firstn_all in Hfirst.
  rewrite firstn_all in Hkept.
  subst arr. rewrite join_map_Some. auto.
Qed.

End Invariant.




End CommentsFacts.

(* ------------------------------------------------------------------ *)
(** ** getTextPosition *)

Lemma substring_prefix (input : jsstr) (pos : nat) :
  substring input 0 (Z.of_nat pos) = firstn pos input.
Proof.
  unfold substring.
  set (len := Z.of_nat (length input)).
  assert (Hlo : Z.min (Z.max 0 (Z.min 0 len)) (Z.max 0 (Z.min (Z.of_nat pos) len)) = 0%Z) by lia.
  rewrite Hlo. simpl skipn.
  destruct (Nat.le_ge_cases pos (length input)) as [H|H].
  - f_equal. lia.
  - rewrite (firstn_all2 (n := pos)) by lia.
    apply firstn_all2. lia.
Qed.

(** The lines of a text: one more than its newlines, and the last one is
    what follows the last newline. *)
Lemma splitLines_spec (s : jsstr) :
  exists before line,
    s = before ++ line /\
    ~ In newline line /\
    (before = [] \/ exists b, before = b ++ [newline]) /\
    last (splitLines s) [] = line /\
    length (splitLines s) = S (count_occ ascii_dec s newline).
Proof.
  induction s as [|c r (before & line & Hs & Hno & Hb & Hlast & Hcount)].
  - exists [], []. simpl. intuition.
  - simpl. destruct (Ascii.eqb_spec c newline) as [->|Hc].
    + exists (newline :: before), line. subst r.
      repeat split; auto.
      * right. destruct Hb as [->|[b ->]]; [now exists []|now exists (newline :: b)].
      * simpl. destruct (splitLines (before ++ line)); [discriminate|assumption].
      * simpl length. rewrite Hcount. destruct (ascii_dec newline newline); congruence.
    + destruct (ascii_dec c newline) as [|_]; [contradiction|].
      destruct (splitLines r) as [|l ls] eqn:El; [discriminate|].
      destruct ls as [|l' ls].
      * simpl in Hlast, Hcount. subst l.
        assert (before = []) as ->.
        { destruct Hb as [->|[b ->]]; [reflexivity|]. subst r.
          rewrite <- app_assoc in Hcount. rewrite count_occ_app in Hcount.
          simpl in Hcount. destruct (ascii_dec newline newline); [lia|congruence]. }
        exists [], (c :: line). simpl in Hs. subst r. simpl.
        repeat split; auto. intros [H|H]; [congruence|contradiction].
      * exists (c :: before), line. subst r. repeat split; auto.
        right. destruct Hb as [->|[b ->]]; [|now exists (c :: b)].
        simpl in Hcount. exfalso.
        assert (count_occ ascii_dec line newline = 0) by now apply count_occ_not_In.
        simpl in *. lia.
Qed.

(** C10.  For an offset [pos], the position text reports as [Line #] one
    more than the number of newlines before [pos] (the number of lines up
    to [pos]) and as [Column #] the length of the last of these lines minus
    one; at the first character of a line, that is at offset 0 or right
    after a newline, the reported column is -1. *)
Theorem getTextPosition_line_and_column (input : jsstr) (pos : nat) :
  (exists before line,
     firstn pos input = before ++ line /\
     ~ In newline line /\
     (before = [] \/ exists b, before = b ++ [newline]) /\
     getTextPosition input (Some (Z.of_nat pos)) =
       str " at Line #: " ++
       numToStr (Z.of_nat (S (count_occ ascii_dec (firstn pos input) newline))) ++
       str ", Column #: " ++ numToStr (Z.of_nat (length line) - 1) ++
       str ", Line: " ++ trim line) /\
  getTextPosition input (Some 0%Z) = str " at Line #: 1, Column #: -1, Line: " /\
  (forall rest : jsstr,
     getTextPosition (input ++ newline :: rest)
                     (Some (Z.of_nat (length input + 1))) =
       str " at Line #: " ++
       numToStr (Z.of_nat (S (count_occ ascii_dec (input ++ [newline]) newline))) ++
       str ", Column #: -1, Line: ").
Proof.
  assert (Hgen : forall (s : jsstr) (p : nat),
             exists before line,
               firstn p s = before ++ line /\
               ~ In newline line /\
               (before = [] \/ exists b, before = b ++ [newline]) /\
               getTextPosition s (Some (Z.of_nat p)) =
                 str " at Line #: " ++
                 numToStr (Z.of_nat (S (count_occ ascii_dec (firstn p s) newline))) ++
                 str ", Column #: " ++ numToStr (Z.of_nat (length line) - 1) ++
                 str ", Line: " ++ trim line).
  { intros s p. unfold getTextPosition. rewrite substring_prefix.
    destruct (splitLines_spec (firstn p s))
      as (before & line & Hs & Hno & Hb & Hlast & Hcount).
    exists before, line. rewrite Hlast, Hcount. auto. }
  split; [apply Hgen|]. split.
  - pose proof (substring_prefix input 0) as H0. simpl in H0.
    unfold getTextPosition. rewrite H0. reflexivity.
  - intros rest.
    destruct (Hgen (input ++ newline :: rest) (length input + 1))
      as (before & line & Hs & Hno & Hb & Hpos).
    assert (Hfirst : firstn (length input + 1) (input ++ newline :: rest)
                     = input ++ [newline]).
    { rewrite firstn_app. rewrite firstn_all2 by lia.
      replace (length input + 1 - length input) with 1 by lia. reflexivity. }
    rewrite Hfirst in *.
    assert (line = []) as ->.
    { destruct line as [|x line'] using rev_ind; [reflexivity|].
      rewrite app_assoc in Hs. apply app_inj_tail in Hs as [_ <-].
      exfalso. apply Hno. apply in_or_app. right. now left. }
    exact Hpos.
Qed.

(* ------------------------------------------------------------------ *)
(** ** Input without elements *)

Module PlainJs.

Import LexerSpec.


Lemma charAt_in_range (input : jsstr) (c : Z) :
  (0 <= c < Z.of_nat (length input))%Z -> exists ch, charAt input c = Some ch.
Proof.
  intros Hc. unfold charAt. destruct (Z.ltb_spec c 0); [lia|].
  destruct (nth_error input (Z.to_nat c)) eqn:E; [eauto|].
  apply nth_error_None in E. lia.
Qed.












End PlainJs.

(* ------------------------------------------------------------------ *)
(** ** The parser *)

Module ParserFacts.

Import Parser ParserSpec.

Lemma countOf_app t l1 l2 :
  countOf t (l1 ++ l2) = (countOf t l1 + countOf t l2)%Z.
Proof. induction l1 as [|x l1 IH]; simpl; [reflexivity|]. rewrite IH. lia. Qed.

Lemma countOf_nonneg t l : (0 <= countOf t l)%Z.
Proof. induction l as [|x l IH]; simpl; [lia|]. destruct (TokenType_eqb x t); lia. Qed.

Lemma nesting_app d d' l1 l2 :
  nesting d l1 = Some d' -> nesting d (l1 ++ l2) = nesting d' l2.
Proof.
  revert d. induction l1 as [|x l1 IH]; intros d H; simpl in *.
  - now inversion H.
  - destruct x; auto. destruct d; [discriminate|auto].
Qed.

Lemma firstn_plus {A} (n m : nat) (l : list A) :
  firstn (n + m) l = firstn n l ++ firstn m (skipn n l).
Proof.
  revert l. induction n as [|n IH]; intros [|x r]; simpl; auto.
  - now rewrite firstn_nil.
  - now rewrite IH.
Qed.

Section Segments.

Variable types : list TokenType.

(** The types of the tokens from index [a] up to index [b]. *)
Definition seg (a b : nat) : list TokenType := firstn (b - a) (skipn a types).

Lemma seg_nil a : seg a a = [].
Proof. unfold seg. now rewrite Nat.sub_diag. Qed.

Lemma seg_app a b c :
  a <= b -> b <= c -> seg a c = seg a b ++ seg b c.
Proof.
  intros Hab Hbc. unfold seg.
  replace (c - a) with ((b - a) + (c - b)) by lia.
  rewrite firstn_plus. f_equal. rewrite skipn_skipn.
  f_equal. f_equal. lia.
Qed.

Lemma seg_one a t :
  nth_error types a = Some t -> seg a (S a) = [t].
Proof.
  intros H. unfold seg. replace (S a - a) with 1 by lia.
  revert H. generalize types. induction a as [|a IH]; intros [|x r] H;
    simpl in *; try discriminate.
  - now inversion H.
  - now apply IH.
Qed.

End Segments.

(** The counting properties of a run of tokens that a walk consumes:
    [open0] for a run that [walk] or a loop over whole nodes consumes,
    [open1] for a run that the element loop consumes, which has the closing
    [e_end] of an element whose [e_start] came before it. *)
Definition open0 (s : list TokenType) : Prop :=
  (countOf e_end s <= countOf e_start s)%Z /\
  (countOf e_start s = countOf e_end s -> forall d, nesting d s = Some d).

Definition open1 (s : list TokenType) : Prop :=
  (countOf e_end s <= countOf e_start s + 1)%Z /\
  (countOf e_end s = (countOf e_start s + 1)%Z -> forall d, nesting (S d) s = Some d).

Lemma open0_nil : open0 [].
Proof. split; simpl; [lia|auto]. Qed.

Lemma open1_nil : open1 [].
Proof. split; simpl; [lia|]. intros H; lia. Qed.

Lemma open0_other t : t <> e_start -> t <> e_end -> open0 [t].
Proof. intros H1 H2. destruct t; try congruence; split; simpl; try lia; auto. Qed.

Lemma open0_app s1 s2 : open0 s1 -> open0 s2 -> open0 (s1 ++ s2).
Proof.
  intros [H1 N1] [H2 N2]. split; rewrite !countOf_app; [lia|].
  intros E d. rewrite (nesting_app d d) by (apply N1; lia). apply N2. lia.
Qed.

Lemma open1_app s1 s2 : open0 s1 -> open1 s2 -> open1 (s1 ++ s2).
Proof.
  intros [H1 N1] [H2 N2]. split; rewrite !countOf_app; [lia|].
  intros E d. rewrite (nesting_app (S d) (S d)) by (apply N1; lia). apply N2. lia.
Qed.

Lemma open1_end : open1 [e_end].
Proof. split; simpl; [lia|auto]. Qed.

Lemma open0_start s : open1 s -> open0 (e_start :: s).
Proof.
  intros [H N]. unfold open0. cbn [countOf TokenType_eqb nesting].
  split; [lia|]. intros E d. apply N. lia.
Qed.

Section Walk.

Variable tokens : list Token.
Variable input : jsstr.
Variable maxRecursiveCalls : Z.
Variable pragmaFrag : jsstr.

Let types : list TokenType := map tok_type tokens.

(** From [v] to [v'] the tokens [s] were consumed and counted. *)
Definition consumed (v : Vars) (s : list TokenType) (v' : Vars) : Prop :=
  skipn (current v) types = s ++ skipn (current v') types /\
  e_start_count v' = (e_start_count v + countOf e_start s)%Z /\
  e_end_count v' = (e_end_count v + countOf e_end s)%Z.

Lemma consumed_refl v : consumed v [] v.
Proof. unfold consumed. simpl. repeat split; lia. Qed.

Lemma consumed_trans v1 s1 v2 s2 v3 :
  consumed v1 s1 v2 -> consumed v2 s2 v3 -> consumed v1 (s1 ++ s2) v3.
Proof.
  intros (A1 & B1 & C1) (A2 & B2 & C2). unfold consumed.
  rewrite A1, A2, <- app_assoc, !countOf_app. repeat split; lia.
Qed.

Lemma skipn_token (cur : nat) (t : Token) :
  nth_error tokens cur = Some t ->
  skipn cur types = tok_type t :: skipn (S cur) types.
Proof.
  intros H. unfold types. clear types. revert cur H.
  induction tokens as [|x r IH]; intros [|cur] H; simpl in *; try discriminate.
  - now inversion H.
  - now apply IH.
Qed.

(** Reading one token that is neither [e_start] nor [e_end]. *)
Lemma consumed_one (v v' : Vars) (t : Token) :
  nth_error tokens (current v) = Some t ->
  current v' = S (current v) ->
  e_start_count v' = (e_start_count v + countOf e_start [tok_type t])%Z ->
  e_end_count v' = (e_end_count v + countOf e_end [tok_type t])%Z ->
  consumed v [tok_type t] v'.
Proof.
  intros H Hc Hs He. unfold consumed. rewrite Hc, (skipn_token _ _ H).
  repeat split; assumption.
Qed.

Definition walkOk (fuel : nat) : Prop :=
  forall v sc st n v',
    walk tokens input maxRecursiveCalls pragmaFrag fuel v sc st = Ok (n, v') ->
    exists s, consumed v s v' /\ open0 s.

Definition elementOk (fuel : nat) : Prop :=
  forall v node value node' v',
    elementLoop tokens input maxRecursiveCalls pragmaFrag fuel v node value
      = Ok (node', v') ->
    exists s, consumed v s v' /\ open1 s.

Definition nodesOk (fuel : nat) : Prop :=
  forall v sc token nodes n v',
    nodesLoop tokens input maxRecursiveCalls pragmaFrag fuel v sc token nodes
      = Ok (n, v') ->
    exists s, consumed v s v' /\ open0 s.

Ltac one_token Htok Ety :=
  eapply consumed_one; [exact Htok | reflexivity | | ];
  rewrite Ety; simpl; lia.

Lemma walk_step (fuel : nat) :
  elementOk fuel -> nodesOk fuel -> walkOk (S fuel).
Proof.
  intros IHe IHn v sc st n v' H. simpl in H.
  destruct (_ >? _)%Z; [discriminate|].
  destruct (nth_error tokens _) as [t|] eqn:Htok; [|discriminate].
  simpl in Htok.
  destruct (tok_type t) eqn:Ety; try discriminate.
  - inversion H; subst. exists [js]. split; [|apply open0_other; discriminate].
    rewrite <- Ety. one_token Htok Ety.
  - match type of H with
    | bind ?e _ = _ => destruct e as [[node' v1]|] eqn:EL; [|discriminate]
    end.
    simpl in H. inversion H; subst.
    destruct (IHe _ _ _ _ _ EL) as (s & Hs & Ho).
    exists ([e_start] ++ s). split; [|now apply open0_start].
    eapply consumed_trans; [|exact Hs].
    rewrite <- Ety. one_token Htok Ety.
  - destruct st as [[]|]; try discriminate.
    destruct (IHn _ _ _ _ _ _ H) as (s & Hs & Ho).
    exists ([e_child_js_start] ++ s). split.
    + eapply consumed_trans; [|exact Hs]. rewrite <- Ety. one_token Htok Ety.
    + apply open0_app; [apply open0_other; discriminate|assumption].
Qed.

Lemma nodes_step (fuel : nat) :
  walkOk fuel -> nodesOk fuel -> nodesOk (S fuel).
Proof.
  intros IHw IHn v sc token nodes n v' H. simpl in H.
  destruct (nth_error tokens _) as [t|] eqn:Htok; [|discriminate].
  destruct (tok_type t) eqn:Ety; try discriminate.
  - match type of H with
    | bind ?e _ = _ => destruct e as [[n1 v1]|] eqn:EW; [|discriminate]
    end.
    simpl in H.
    destruct (IHw _ _ _ _ _ EW) as (s1 & Hs1 & Ho1).
    destruct (IHn _ _ _ _ _ _ H) as (s2 & Hs2 & Ho2).
    exists (s1 ++ s2). split; [|now apply open0_app].
    eapply consumed_trans; [|exact Hs2].
    destruct Hs1 as (A & B & C). simpl in A, B, C. repeat split; assumption.
  - inversion H; subst. exists [e_child_js_end].
    split; [|apply open0_other; discriminate].
    rewrite <- Ety. one_token Htok Ety.
Qed.

#[local] Arguments nth_error : simpl never.

Lemma element_step (fuel : nat) :
  walkOk fuel -> elementOk fuel -> elementOk (S fuel).
Proof.
  intros IHw IHe v node value node' v' H. simpl in H.
  destruct (nth_error tokens (current v)) as [t|] eqn:Htok.
  2: { inversion H; subst. exists []. split; [apply consumed_refl|apply open1_nil]. }
  assert (Hother : forall v1 node1 value1,
             tok_type t <> e_start -> tok_type t <> e_end ->
             consumed v [tok_type t] v1 ->
             elementLoop tokens input maxRecursiveCalls pragmaFrag fuel v1 node1 value1
               = Ok (node', v') ->
             exists s, consumed v s v' /\ open1 s).
  { intros v1 node1 value1 N1 N2 Hc HL.
    destruct (IHe _ _ _ _ _ HL) as (s & Hs & Ho).
    exists ([tok_type t] ++ s). split; [eapply consumed_trans; eassumption|].
    apply open1_app; [now apply open0_other|assumption]. }
  assert (Hone : forall ty, tok_type t = ty -> ty <> e_start -> ty <> e_end ->
                 consumed v [tok_type t] (set_current (S (current v)) v)).
  { intros ty Ety N1 N2. eapply consumed_one; [exact Htok|reflexivity| |];
      rewrite Ety; destruct ty; simpl; try lia; congruence. }
  destruct (tok_type t) eqn:Ety; try discriminate.
  - (* e_start: a nested element *)
    match type of H with
    | bind ?e _ = _ => destruct e as [[n1 v1]|] eqn:EW; [|discriminate]
    end.
    simpl in H.
    destruct (IHw _ _ _ _ _ EW) as (s1 & Hs1 & Ho1).
    destruct (IHe _ _ _ _ _ H) as (s2 & Hs2 & Ho2).
    exists (s1 ++ s2). split; [|now apply open1_app].
    eapply consumed_trans; [|exact Hs2].
    destruct Hs1 as (A & B & C). simpl in A, B, C. repeat split; assumption.
  - (* e_end *)
    destruct (_ && _); [discriminate|]. inversion H; subst.
    exists [e_end]. split; [|apply open1_end].
    rewrite <- Ety. one_token Htok Ety.
  - (* e_prop *)
    assert (Hc0 : consumed v [e_prop] (set_current (S (current v)) v))
      by (apply (Hone _ eq_refl); discriminate).
    set (v0 := set_current (S (current v)) v) in *.
    match type of H with
    | bind ?e _ = _ => destruct e as [[pv v1]|] eqn:EP; [|discriminate]
    end.
    simpl in H.
    assert (Hp : exists s1, consumed v0 s1 v1 /\ open0 s1).
    { unfold nextTokenType in EP. simpl in EP.
      destruct (nth_error tokens (S (current v))) as [t2|] eqn:Htok2; simpl in EP.
      - destruct (tok_type t2) eqn:Ety2;
          try (inversion EP; subst; exists []; split;
               [apply consumed_refl|apply open0_nil]).
        + inversion EP; subst. exists [js]. split; [|apply open0_other; discriminate].
          rewrite <- Ety2. one_token Htok2 Ety2.
        + destruct (walk _ _ _ _ _ _ _ _) as [[n1 v2]|] eqn:EW; [|discriminate].
          simpl in EP. inversion EP; subst. exact (IHw _ _ _ _ _ EW).
        + inversion EP; subst. exists [e_value]. split; [|apply open0_other; discriminate].
          rewrite <- Ety2. one_token Htok2 Ety2.
        + destruct (walk _ _ _ _ _ _ _ _) as [[n1 v2]|] eqn:EW; [|discriminate].
          simpl in EP. inversion EP; subst. exact (IHw _ _ _ _ _ EW).
      - inversion EP; subst. exists []. split; [apply consumed_refl|apply open0_nil]. }
    destruct Hp as (s1 & Hs1 & Ho1).
    destruct (IHe _ _ _ _ _ H) as (s2 & Hs2 & Ho2).
    exists ([e_prop] ++ s1 ++ s2). split.
    + eapply consumed_trans; [exact Hc0|]. eapply consumed_trans; eassumption.
    + apply open1_app; [apply open0_other; discriminate|].
      now apply open1_app.
  - (* e_child_text *)
    destruct (negb _);
      (eapply Hother; [discriminate|discriminate| |exact H]);
      apply (Hone _ eq_refl); discriminate.
  - (* e_child_js *)
    destruct (negb _);
      (eapply Hother; [discriminate|discriminate| |exact H]);
      apply (Hone _ eq_refl); discriminate.
  - eapply Hother; [discriminate|discriminate| |exact H].
    apply (Hone _ eq_refl); discriminate.
  - eapply Hother; [discriminate|discriminate| |exact H].
    apply (Hone _ eq_refl); discriminate.
  - eapply Hother; [discriminate|discriminate| |exact H].
    apply (Hone _ eq_refl); discriminate.
Qed.

Lemma walk_all_ok (fuel : nat) : walkOk fuel /\ elementOk fuel /\ nodesOk fuel.
Proof.
  induction fuel as [|fuel (IHw & IHe & IHn)].
  - repeat split.
    + intros v sc st n v' H. discriminate.
    + intros v node value node' v' H. simpl in H.
      destruct (nth_error tokens (current v)); [discriminate|].
      inversion H; subst. exists []. split; [apply consumed_refl|apply open1_nil].
    + intros v sc token nodes n v' H. simpl in H.
      destruct (nth_error tokens (current v)); discriminate.
  - repeat split.
    + now apply walk_step.
    + now apply element_step.
    + now apply nodes_step.
Qed.

Lemma bodyLoop_ok (fuel : nat) :
  forall v body body' v',
    bodyLoop tokens input maxRecursiveCalls pragmaFrag fuel v body = Ok (body', v') ->
    exists s, consumed v s v' /\ open0 s /\ nth_error tokens (current v') = None.
Proof.
  induction fuel as [|fuel IH]; intros v body body' v' H; simpl in H;
    destruct (nth_error tokens (current v)) as [t|] eqn:Htok; try discriminate.
  - inversion H; subst. exists []. auto using consumed_refl, open0_nil.
  - match type of H with
    | bind ?e _ = _ => destruct e as [[n1 v1]|] eqn:EW; [|discriminate]
    end.
    simpl in H.
    destruct (proj1 (walk_all_ok fuel) _ _ _ _ _ EW) as (s1 & Hs1 & Ho1).
    destruct (IH _ _ _ _ H) as (s2 & Hs2 & Ho2 & Hend).
    exists (s1 ++ s2).
    split; [eapply consumed_trans; eassumption|].
    split; [now apply open0_app|assumption].
  - inversion H; subst. exists []. auto using consumed_refl, open0_nil.
Qed.

End Walk.

Lemma setIndex_types (n : nat) (tokens : list Token) :
  map tok_type (setIndex n tokens) = map tok_type tokens.
Proof.
  revert n. induction tokens as [|t r IH]; intros n; simpl; [reflexivity|].
  now rewrite IH.
Qed.

(** After a walk over all tokens, the two counters hold the numbers of
    [e_start] and of [e_end] tokens of the list. *)
Lemma walkAll_counts (cfg : Config) (tokens : list Token) (input : jsstr)
      (body : list Node) (v : Vars) :
  walkAll cfg tokens input = Ok (body, v) ->
  e_start_count v = countOf e_start (map tok_type tokens) /\
  e_end_count v = countOf e_end (map tok_type tokens) /\
  open0 (map tok_type tokens).
Proof.
  unfold walkAll. intros H.
  destruct (bodyLoop_ok _ _ _ _ _ _ _ _ _ H) as (s & (A & B & C) & Ho & Hend).
  apply nth_error_None in Hend.
  simpl in A, B, C.
  rewrite (skipn_all2 (n := current v)) in A by (rewrite length_map; exact Hend).
  rewrite app_nil_r in A. subst s.
  rewrite setIndex_types in *. auto.
Qed.

Lemma parser_walkAll (cfg : Config) (tokens : list Token) (input : jsstr) :
  fst (parser cfg tokens input) =
    match walkAll cfg tokens input with
    | Ok (body, v) =>
        if negb (e_start_count v =? e_end_count v)%Z
        then Throw UnbalancedElements
        else Ok (Program body)
    | Throw e => Throw e
    end.
Proof.
  unfold parser, Parser.parser, walkAll. simpl.
  destruct (bodyLoop _ _ _ _ _ _ _) as [[body v]|]; reflexivity.
Qed.

(** C7.  When the element loop of [walk] reads the [e_end] token of the
    element [node] it builds, it throws the mismatched-tags error exactly
    when the name in the closing tag is not empty and is not the name of
    [node] (for a fragment, the fragment pragma); otherwise the loop ends
    with [node] and the [e_end] counter one higher.  An empty closing name
    is accepted for every element. *)
Theorem closing_tag_check (tokens : list Token) (input : jsstr) (max : Z)
        (frag : jsstr) (fuel : nat) (v : Vars) (node : Element)
        (value : option jsstr) (t : Token) :
  nth_error tokens (current v) = Some t ->
  tok_type t = e_end ->
  let endName := tagName (tok_value t) in
  let result := elementLoop tokens input max frag (S fuel) v node value in
  ((exists e, result = Throw e) <-> (endName <> [] /\ endName <> name node)) /\
  (endName <> [] -> endName <> name node ->
   result = Throw (MismatchedTags endName (name node) (tok_index t)
                     (getTextPosition input (tok_pos t)))) /\
  (endName = [] \/ endName = name node ->
   result = Ok (node, set_e_end_count (e_end_count v + 1)
                        (set_current (S (current v)) v))).
Proof.
  intros Htok Ety endName result.
  assert (Hres : result =
            if negb (streq endName (name node)) && negb (streq endName [])
            then Throw (MismatchedTags endName (name node) (tok_index t)
                          (getTextPosition input (tok_pos t)))
            else Ok (node, set_e_end_count (e_end_count v + 1)
                             (set_current (S (current v)) v))).
  { unfold result. simpl. rewrite Htok, Ety. reflexivity. }
  rewrite Hres.
  destruct (streq_spec endName (name node)) as [E1|E1];
    destruct (streq_spec endName []) as [E2|E2]; simpl;
    (split; [split|split]);
    try (intros [e He]; discriminate);
    try (intros [? ?]; contradiction);
    try (intros; contradiction);
    try (intros; reflexivity);
    try (intros [?|?]; contradiction).
  - intros _. split; assumption.
  - intros _. eauto.
Qed.

(** The check at [</B>] after [<A>], and at [</>] after [<A>]. *)
Lemma closing_tag_check_witness :
  let tokens := [token e_start (str "<A>") (Some 2%Z);
                 token e_end (str "</B>") (Some 6%Z);
                 token e_end (str "</>") (Some 9%Z)] in
  let node := mkElement (str "A") true [] [] (Some 2%Z) 0 in
  (exists e, elementLoop tokens (str "<A></B></>") 1000 (str "React.Fragment") 1
                         (mkVars 1 1 1 0) node None = Throw e) /\
  elementLoop tokens (str "<A></B></>") 1000 (str "React.Fragment") 1
              (mkVars 2 1 1 0) node None = Ok (node, mkVars 3 1 1 1).
Proof.
  intros tokens node. split.
  - apply (proj1 (closing_tag_check tokens (str "<A></B></>") 1000
                    (str "React.Fragment") 0 (mkVars 1 1 1 0) node None
                    (token e_end (str "</B>") (Some 6%Z)) eq_refl eq_refl)).
    split; discriminate.
  - apply (proj2 (proj2 (closing_tag_check tokens (str "<A></B></>") 1000
                    (str "React.Fragment") 0 (mkVars 2 1 1 0) node None
                    (token e_end (str "</>") (Some 9%Z)) eq_refl eq_refl))).
    left. reflexivity.
Defined.

(** X9.  After the walk has consumed all tokens, its
    two counters are the numbers of [e_start] and of [e_end] tokens, and
    [parser] throws exactly when they differ; the error is the
    unbalanced-elements error, whose message has no position.  It is not
    the only error without one: the loop and call-count guards and the
    code generator's errors have none either. *)
Theorem unbalanced_check (cfg : Config) (tokens : list Token) (input : jsstr)
        (body : list Node) (v : Vars) :
  walkAll cfg tokens input = Ok (body, v) ->
  let starts := countOf e_start (map tok_type tokens) in
  let ends := countOf e_end (map tok_type tokens) in
  e_start_count v = starts /\ e_end_count v = ends /\
  ((exists e, fst (parser cfg tokens input) = Throw e) <-> starts <> ends) /\
  (starts <> ends -> fst (parser cfg tokens input) = Throw UnbalancedElements) /\
  (starts = ends -> fst (parser cfg tokens input) = Ok (Program body)) /\
  positionOf UnbalancedElements = None /\
  includes (str "Line #") (message UnbalancedElements) = false /\
  positionOf EndlessLoop = None /\
  positionOf CallCountTokenizer = None /\
  positionOf CallCountParser = None.
Proof.
  intros H starts ends.
  destruct (walkAll_counts _ _ _ _ _ H) as (Hs & He & _).
  fold starts in Hs. fold ends in He.
  rewrite parser_walkAll, H, Hs, He.
  destruct (Z.eqb_spec starts ends) as [E|E]; simpl.
  - repeat split; try reflexivity; try tauto. intros [e He']; discriminate.
  - repeat split; try reflexivity; try tauto. eauto.
Qed.

(** The check on the tokens of an element that is not closed. *)
Lemma unbalanced_check_witness :
  fst (parser defaultConfig [token e_start (str "<div>") (Some 4%Z)] (str "<div>"))
    = Throw UnbalancedElements.
Proof.
  refine (proj1 (proj2 (proj2 (proj2
            (unbalanced_check defaultConfig
               [token e_start (str "<div>") (Some 4%Z)] (str "<div>")
               [CreateElement (str "div") false [] [] (Some 4%Z) 0]
               (mkVars 1 1 1 0) _)))) _).
  - vm_compute. reflexivity.
  - vm_compute. discriminate.
Defined.

(** C8 as it is stated fails: [compile] of a very short element throws the
    endless-loop error, which is another error and has no position. *)
Lemma unbalanced_check_counterexample :
  compile (fun s => s) defaultConfig (str "<br/>") = Throw EndlessLoop /\
  EndlessLoop <> UnbalancedElements /\
  positionOf EndlessLoop = None /\
  includes (str "Line #") (message EndlessLoop) = false.
Proof.
  split; [vm_compute; reflexivity|]. split; [discriminate|]. split; reflexivity.
Qed.

(** X8.  A token list that [parser] accepts is balanced: every [e_start] is
    closed by exactly one [e_end] at its nesting level, and there are as
    many of the one as of the other. *)
Theorem parser_accepts_balanced (cfg : Config) (tokens : list Token)
        (input : jsstr) (ast : Node) :
  fst (parser cfg tokens input) = Ok ast ->
  balanced tokens /\
  countOf e_start (map tok_type tokens) = countOf e_end (map tok_type tokens).
Proof.
  rewrite parser_walkAll.
  destruct (walkAll cfg tokens input) as [[body v]|e] eqn:H; [|discriminate].
  destruct (walkAll_counts _ _ _ _ _ H) as (Hs & He & _ & Hn).
  destruct (Z.eqb_spec (e_start_count v) (e_end_count v)) as [E|E];
    simpl; [|discriminate].
  intros _. rewrite Hs, He in E. split; [|assumption].
  apply Hn. assumption.
Qed.

(** The tokens of [<ul><li/></ul>] between two JS texts. *)
Lemma parser_accepts_balanced_witness :
  balanced [token js (str "x = ") (Some 0%Z);
            token e_start (str "<ul>") (Some 7%Z);
            token e_start (str "<li") (Some 10%Z);
            token e_end (str "/>") (Some 13%Z);
            token e_end (str "</ul>") (Some 17%Z);
            token js (str ";") (Some 18%Z)].
Proof.
  refine (proj1 (parser_accepts_balanced defaultConfig _ (str "x = <ul><li/></ul>;")
                   (Program [JsChunk (str "x = ") (Some 0%Z) 0;
                             CreateElement (str "ul") false []
                               [ChildElement
                                  (CreateElement (str "li") false [] [] (Some 10%Z) 1)
                                  (Some 10%Z)]
                               (Some 7%Z) 0;
                             JsChunk (str ";") (Some 18%Z) 0]) _)).
  vm_compute. reflexivity.
Defined.

Lemma setIndex_nth (k n : nat) (tokens : list Token) (t : Token) :
  nth_error tokens n = Some t ->
  nth_error (setIndex k tokens) n =
    Some (mkToken (tok_type t) (tok_value t) (tok_pos t) (Some (k + n))).
Proof.
  revert k n. induction tokens as [|x r IH]; intros k [|n] H; simpl in *;
    try discriminate.
  - inversion H; subst. now rewrite Nat.add_0_r.
  - rewrite (IH (S k) n H). do 3 f_equal. lia.
Qed.

Lemma setIndex_length (k : nat) (tokens : list Token) :
  length (setIndex k tokens) = length tokens.
Proof. revert k. induction tokens; intros k; simpl; auto. Qed.

(** X10.  What [parser] does to the token array it is given: whether it
    returns or throws, it has set the [index] of every token to the
    token's place in the array, and changed nothing else. *)
Theorem parser_sets_token_index (cfg : Config) (tokens : list Token)
        (input : jsstr) :
  length (snd (parser cfg tokens input)) = length tokens /\
  forall n t,
    nth_error tokens n = Some t ->
    nth_error (snd (parser cfg tokens input)) n =
      Some (mkToken (tok_type t) (tok_value t) (tok_pos t) (Some n)).
Proof.
  unfold parser, Parser.parser. simpl. split.
  - apply setIndex_length.
  - intros n t H. apply (setIndex_nth 0 n tokens t H).
Qed.

Lemma parser_sets_token_index_witness :
  nth_error (snd (parser defaultConfig
                         [token js (str "a") (Some 0%Z); token js (str "b") None]
                         (str "ab"))) 1
  = Some (mkToken js (str "b") None (Some 1)).
Proof.
  exact (proj2 (parser_sets_token_index defaultConfig
                  [token js (str "a") (Some 0%Z); token js (str "b") None]
                  (str "ab")) 1 (token js (str "b") None) eq_refl).
Defined.

Lemma removeFirst_notin (c : ascii) (s : jsstr) :
  ~ In c s -> removeFirst c s = s.
Proof.
  induction s as [|x r IH]; intros H; simpl; [reflexivity|].
  destruct (Ascii.eqb_spec x c) as [->|_].
  - exfalso. apply H. now left.
  - f_equal. apply IH. intros Hin. apply H. now right.
Qed.

Lemma removeFirst_app (c : ascii) (s r : jsstr) :
  ~ In c s -> removeFirst c (s ++ r) = s ++ removeFirst c r.
Proof.
  induction s as [|x s IH]; intros H; simpl; [reflexivity|].
  destruct (Ascii.eqb_spec x c) as [->|_].
  - exfalso. apply H. now left.
  - f_equal. apply IH. intros Hin. apply H. now right.
Qed.

Lemma tagName_open (name : jsstr) :
  plainName name -> tagName (str "<" ++ name ++ str ">") = name.
Proof.
  intros (H1 & H2 & H3). unfold tagName. simpl.
  rewrite (removeFirst_app "/" name) by assumption. simpl.
  rewrite (removeFirst_app ">" name) by assumption. simpl.
  apply app_nil_r.
Qed.

Lemma tagName_close (name : jsstr) :
  plainName name -> tagName (str "</" ++ name ++ str ">") = name.
Proof.
  intros (H1 & H2 & H3). unfold tagName. simpl.
  rewrite (removeFirst_app ">" name) by assumption. simpl.
  apply app_nil_r.
Qed.

(** X11.  An opening tag and a closing tag, parsed: the element is accepted when
    the closing tag has the name of the opening tag or no name, and it is
    rejected with the mismatched-tags error, which names both tags and the
    index and position of the closing token, for every other name. *)
Theorem parser_matches_tags (cfg : Config) (input name close : jsstr)
        (p1 p2 : option Z) :
  (1 <= maxRecursiveCalls cfg)%Z ->
  name <> [] -> plainName name -> plainName close ->
  fst (parser cfg [token e_start (str "<" ++ name ++ str ">") p1;
                   token e_end (str "</" ++ close ++ str ">") p2] input) =
    if streq close name || streq close []
    then Ok (Program [CreateElement name (computeIsClass name) [] [] p1 0])
    else Throw (MismatchedTags close name (Some 1) (getTextPosition input p2)).
Proof.
  intros Hmax Hne Hname Hclose.
  unfold parser, Parser.parser.
  cbn -[tagName computeIsClass getTextPosition execHint Z.gtb Z.add].
  destruct (Z.gtb_spec (0 + 1) (maxRecursiveCalls cfg)); [lia|].
  pose proof (tagName_open name Hname) as T1.
  pose proof (tagName_close close Hclose) as T2.
  cbn -[tagName] in T1, T2.
  cbn -[tagName computeIsClass getTextPosition execHint Z.gtb Z.add].
  rewrite T1, T2.
  destruct (streq_spec name []) as [E|_]; [contradiction|].
  destruct (streq_spec close name) as [E1|E1];
    destruct (streq_spec close []) as [E2|E2]; reflexivity.
Qed.

Lemma parser_matches_tags_witness :
  fst (parser defaultConfig [token e_start (str "<div>") (Some 4%Z);
                             token e_end (str "</span>") (Some 11%Z)]
              (str "<div></span>")) =
    Throw (MismatchedTags (str "span") (str "div") (Some 1)
             (getTextPosition (str "<div></span>") (Some 11%Z))).
Proof.
  apply (parser_matches_tags defaultConfig (str "<div></span>") (str "div")
           (str "span") (Some 4%Z) (Some 11%Z)).
  - vm_compute. discriminate.
  - discriminate.
  - repeat split; simpl; intros H; repeat destruct H as [H|H]; try discriminate H; exact H.
  - repeat split; simpl; intros H; repeat destruct H as [H|H]; try discriminate H; exact H.
Defined.

End ParserFacts.

(* ------------------------------------------------------------------ *)
(** ** Code hints *)

Module HintFacts.

Lemma startsWith_app (p s : jsstr) : startsWith p (p ++ s) = true.
Proof.
  induction p as [|c p IH]; simpl; [reflexivity|].
  now rewrite Ascii.eqb_refl.
Qed.

Lemma skipn_app_length {A} (p s : list A) : skipn (length p) (p ++ s) = s.
Proof. induction p; simpl; auto. Qed.

Lemma takeWhile_all (f : ascii -> bool) (s : jsstr) : forallb f (takeWhile f s) = true.
Proof.
  induction s as [|c r IH]; simpl; [reflexivity|].
  destruct (f c) eqn:E; simpl; [now rewrite E|reflexivity].
Qed.

Lemma matchHintTail_name (d s n : jsstr) :
  matchHintTail d s = Some n -> n <> [] /\ forallb isHintChar n = true.
Proof.
  unfold matchHintTail.
  destruct s as [|c r]; [discriminate|].
  destruct (isWhite c); [|discriminate].
  destruct (startsWith d _); [|discriminate].
  destruct (skipn _ _) as [|x s2]; [discriminate|].
  destruct (isWhite x); [|discriminate].
  destruct (takeWhile isHintChar (dropWhile isWhite s2)) as [|y n'] eqn:E;
    [discriminate|].
  intros H. inversion H; subst. split; [discriminate|].
  rewrite <- E. apply takeWhile_all.
Qed.

Lemma matchHintAt_name (d s n : jsstr) :
  matchHintAt d s = Some n -> n <> [] /\ forallb isHintChar n = true.
Proof.
  unfold matchHintAt.
  repeat match goal with
    | |- context [if ?b then _ else _] => destruct b
    end;
    repeat match goal with
      | |- context [matchHintTail ?a ?b] =>
          let E := fresh "E" in
          destruct (matchHintTail a b) eqn:E;
          [apply matchHintTail_name in E|]
      end;
    intros H; inversion H; subst; assumption.
Qed.

(** X12.  The name a code hint gives is never empty and is made of letters and
    dots only, whatever follows it in the input. *)
Theorem execHint_name (d s n : jsstr) :
  execHint d s = Some n -> n <> [] /\ forallb isHintChar n = true.
Proof.
  induction s as [|c r IH]; cbn [execHint].
  - destruct (matchHintAt d []) eqn:E; [|discriminate].
    intros H; inversion H; subst. now apply matchHintAt_name in E.
  - destruct (matchHintAt d (c :: r)) eqn:E; [|exact IH].
    intros H; inversion H; subst. now apply matchHintAt_name in E.
Qed.

Lemma execHint_name_witness :
  str "h" <> [] /\ forallb isHintChar (str "h") = true.
Proof.
  apply (execHint_name (str "@jsx") (str "/* @jsx h-2 */") (str "h")).
  vm_compute. reflexivity.
Defined.

Lemma matchHintAt_no_slash (d : jsstr) (c : ascii) (r : jsstr) :
  c <> "/"%char -> matchHintAt d (c :: r) = None.
Proof.
  intros H. unfold matchHintAt.
  assert (E : Ascii.eqb "/" c = false) by (apply Ascii.eqb_neq; congruence).
  change (startsWith (str "//") (c :: r))
    with (Ascii.eqb "/" c && startsWith (str "/") r).
  change (startsWith (str "/*") (c :: r))
    with (Ascii.eqb "/" c && startsWith (str "*") r).
  change (startsWith (str "/**") (c :: r))
    with (Ascii.eqb "/" c && startsWith (str "**") r).
  rewrite E. reflexivity.
Qed.

Lemma isHintChar_not_white (c : ascii) : isHintChar c = true -> isWhite c = false.
Proof.
  destruct c as [[] [] [] [] [] [] [] []]; vm_compute; intros H;
    first [reflexivity | discriminate H].
Qed.

Lemma takeWhile_app (f : ascii -> bool) (n rest : jsstr) :
  forallb f n = true ->
  match rest with [] => True | x :: _ => f x = false end ->
  takeWhile f (n ++ rest) = n.
Proof.
  intros Hn Hrest. induction n as [|c n IH]; simpl in *.
  - destruct rest as [|x r]; [reflexivity|]. simpl. now rewrite Hrest.
  - apply andb_true_iff in Hn as [Hc Hn]. rewrite Hc. f_equal. now apply IH.
Qed.

Lemma matchHintTail_found (d name rest : jsstr) :
  match d with [] => False | c :: _ => isWhite c = false end ->
  name <> [] -> forallb isHintChar name = true ->
  match rest with [] => True | x :: _ => isHintChar x = false end ->
  matchHintTail d (" "%char :: d ++ " "%char :: name ++ rest) = Some name.
Proof.
  intros Hd Hne Hname Hrest. unfold matchHintTail.
  change (isWhite " ") with true. cbn iota.
  assert (Hdrop : dropWhile isWhite (" "%char :: d ++ " "%char :: name ++ rest)
                  = d ++ " "%char :: name ++ rest).
  { cbn [dropWhile]. change (isWhite " ") with true. cbn iota.
    destruct d as [|x d']; [contradiction|].
    cbn [app dropWhile]. now rewrite Hd. }
  rewrite Hdrop, startsWith_app, skipn_app_length.
  change (isWhite " ") with true. cbn iota.
  destruct name as [|y name']; [contradiction|].
  cbn [app dropWhile].
  assert (Hy : isHintChar y = true)
    by (simpl in Hname; now apply andb_true_iff in Hname as [? _]).
  rewrite (isHintChar_not_white y Hy).
  change (y :: name' ++ rest) with ((y :: name') ++ rest).
  rewrite (takeWhile_app isHintChar (y :: name') rest Hname Hrest).
  reflexivity.
Qed.

Lemma matchHintAt_found (d name rest : jsstr) :
  match d with [] => False | c :: _ => isWhite c = false end ->
  name <> [] -> forallb isHintChar name = true ->
  match rest with [] => True | x :: _ => isHintChar x = false end ->
  matchHintAt d ("/"%char :: "/"%char :: " "%char :: d ++ " "%char :: name ++ rest)
    = Some name.
Proof.
  intros Hd Hne Hname Hrest. unfold matchHintAt.
  change (startsWith (str "//")
            ("/"%char :: "/"%char :: " "%char :: d ++ " "%char :: name ++ rest))
    with true.
  change (skipn (String.length "//")
            ("/"%char :: "/"%char :: " "%char :: d ++ " "%char :: name ++ rest))
    with (" "%char :: d ++ " "%char :: name ++ rest).
  cbn iota. now rewrite matchHintTail_found.
Qed.

(** X13.  A hint is found by its text alone.  After any text without a slash
    (the opening of a string literal, for one), the two slashes, a space,
    the directive, a space and a name give that name, when what follows
    the name is not a letter or a dot. *)
Theorem execHint_anywhere (d pre name rest : jsstr) :
  match d with [] => False | c :: _ => isWhite c = false end ->
  ~ In "/"%char pre ->
  name <> [] -> forallb isHintChar name = true ->
  match rest with [] => True | x :: _ => isHintChar x = false end ->
  execHint d (pre ++ str "// " ++ d ++ str " " ++ name ++ rest) = Some name.
Proof.
  intros Hd Hpre Hne Hname Hrest.
  change (str "// " ++ d ++ str " " ++ name ++ rest)
    with ("/"%char :: "/"%char :: " "%char :: d ++ " "%char :: name ++ rest).
  induction pre as [|c pre IH].
  - cbn [app execHint]. now rewrite matchHintAt_found.
  - cbn [app execHint].
    assert (Hc : c <> "/"%char) by (intros ->; apply Hpre; now left).
    rewrite (matchHintAt_no_slash d c _ Hc).
    apply IH. intros Hin. apply Hpre. now right.
Qed.

(** The hint inside a string literal. *)
Lemma execHint_anywhere_witness :
  execHint (str "@jsx") (str "var s = '// @jsx h'; var a = <b/>;") = Some (str "h").
Proof.
  apply (execHint_anywhere (str "@jsx") (str "var s = '") (str "h")
                           (str "'; var a = <b/>;")).
  - reflexivity.
  - simpl. intros H. repeat destruct H as [H|H]; try discriminate H. exact H.
  - discriminate.
  - reflexivity.
  - reflexivity.
Defined.

End HintFacts.

(* ------------------------------------------------------------------ *)
(** ** Finding elements *)

Module ScanFacts.

Import LexerSpec.

Lemma isExpression_loop_operator (rest : jsstr) (foundName : bool) :
  isExpression_loop rest foundName = true -> existsb isOperator rest = true.
Proof.
  revert foundName. induction rest as [|c r IH]; intros foundName; simpl;
    [discriminate|].
  destruct (isNameChar c).
  - destruct foundName; [discriminate|]. intros H. rewrite (IH _ H). apply orb_true_r.
  - destruct (Ascii.eqb c ">"); [discriminate|].
    destruct (Ascii.eqb c " ").
    + intros H. rewrite (IH _ H). apply orb_true_r.
    + fold (isOperator c). destruct (isOperator c); [reflexivity|].
      intros H. rewrite (IH _ H). reflexivity.
Qed.

(** X5.  [isExpression] answers that a ["<"] is a less-than sign only when one
    of the characters [)], [&], [|], [?] and [;] comes somewhere after the
    character that follows the ["<"]. *)
Theorem isExpression_needs_operator (input : jsstr) (current : Z) :
  isExpression input current = true ->
  existsb isOperator (skipn (Z.to_nat (current + 2)) input) = true.
Proof. apply isExpression_loop_operator. Qed.

Lemma isExpression_needs_operator_witness :
  existsb isOperator (skipn (Z.to_nat (1 + 2)) (str "a<b?c:d")) = true.
Proof.
  apply (isExpression_needs_operator (str "a<b?c:d") 1). reflexivity.
Defined.

Lemma isExpression_loop_names (name : jsstr) (op : ascii) (rest : jsstr) :
  forallb isNameChar name = true -> isOperator op = true ->
  isExpression_loop (name ++ op :: rest) false = true.
Proof.
  intros Hname Hop. induction name as [|c name IH]; simpl in *.
  - assert (Hn : isNameChar op = false).
    { revert Hop. destruct op as [[] [] [] [] [] [] [] []]; vm_compute;
        intros H; first [reflexivity | discriminate H]. }
    assert (Hg : Ascii.eqb op ">" = false).
    { revert Hop. destruct op as [[] [] [] [] [] [] [] []]; vm_compute;
        intros H; first [reflexivity | discriminate H]. }
    assert (Hs : Ascii.eqb op " " = false).
    { revert Hop. destruct op as [[] [] [] [] [] [] [] []]; vm_compute;
        intros H; first [reflexivity | discriminate H]. }
    rewrite Hn, Hg, Hs. unfold isOperator in Hop. now rewrite Hop.
  - apply andb_true_iff in Hname as [Hc Hname]. rewrite Hc. now apply IH.
Qed.

(** X6.  A ["<"] between two names without spaces, the second one followed by
    one of [)], [&], [|], [?] and [;], is taken for a less-than sign, as in
    [a<b?c:d]. *)
Theorem isExpression_compact_comparison (pre : jsstr) (x : ascii)
        (name : jsstr) (op : ascii) (rest : jsstr) :
  forallb isNameChar name = true -> isOperator op = true ->
  isExpression (pre ++ "<"%char :: x :: name ++ op :: rest)
               (Z.of_nat (length pre)) = true.
Proof.
  intros Hname Hop. unfold isExpression.
  replace (Z.to_nat (Z.of_nat (length pre) + 2)) with (2 + length pre) by lia.
  rewrite <- skipn_skipn, HintFacts.skipn_app_length.
  cbn [skipn]. now apply isExpression_loop_names.
Qed.

Lemma isExpression_compact_comparison_witness :
  isExpression (str "a<b?c:d") (Z.of_nat 1) = true.
Proof.
  apply (isExpression_compact_comparison (str "a") "b" [] "?" (str "c:d"));
    reflexivity.
Defined.

Lemma nextElementPos_loop_sound (input : jsstr) (fuel : nat) :
  forall (c : Z) (sq dq ml : bool) (p : Z),
    Lexer.nextElementPos_loop input fuel c sq dq ml = Some p ->
    (c <= p < Z.of_nat (length input) - 1)%Z /\
    charAt input p = Some "<"%char /\
    testLetterGt (charAt input (p + 1)) = true /\
    isExpression input p = false.
Proof.
  induction fuel as [|fuel IH]; intros c sq dq ml p; [discriminate|].
  cbn [Lexer.nextElementPos_loop].
  destruct (Z.ltb_spec c (Z.of_nat (length input) - 1)); [|discriminate].
  assert (Hnext : forall sq' dq' ml',
             Lexer.nextElementPos_loop input fuel (c + 1) sq' dq' ml' = Some p ->
             (c <= p < Z.of_nat (length input) - 1)%Z /\
             charAt input p = Some "<"%char /\
             testLetterGt (charAt input (p + 1)) = true /\
             isExpression input p = false).
  { intros sq' dq' ml' H'. destruct (IH _ _ _ _ _ H') as (A & B). split; [lia|exact B]. }
  destruct dq; [apply Hnext|].
  destruct sq; [apply Hnext|].
  destruct ml; [apply Hnext|].
  destruct (Lexer.optIs (charAt input c) dquote); [apply Hnext|].
  destruct (Lexer.optIs (charAt input c) "'"); [apply Hnext|].
  destruct (Lexer.optIs (charAt input c) "`"); [apply Hnext|].
  destruct (Lexer.optIs (charAt input c) "<") eqn:Elt; [|apply Hnext].
  destruct (testLetterGt (charAt input (c + 1))) eqn:Et; [|apply Hnext].
  destruct (isExpression input c) eqn:Ee; [apply Hnext|].
  cbn [negb andb]. intros H'. inversion H'; subst p.
  repeat split; try lia; try assumption.
  unfold Lexer.optIs in Elt. destruct (charAt input c); [|discriminate].
  apply Ascii.eqb_eq in Elt. now subst.
Qed.

(** X4.  The offset [nextElementPos] returns is the offset, at or after the
    current one, of a ["<"] that is followed by a letter or by [">"] and
    that [isExpression] does not take for a less-than sign; a ["<"]
    followed by a space, a digit or the end of the input is never the start
    of an element. *)
Theorem nextElementPos_sound (input : jsstr) (current p : Z) :
  Lexer.nextElementPos input current = Some p ->
  (current <= p < Z.of_nat (length input) - 1)%Z /\
  charAt input p = Some "<"%char /\
  (exists c, charAt input (p + 1) = Some c /\
             (isLetter c || Ascii.eqb c ">") = true) /\
  isExpression input p = false.
Proof.
  intros H. destruct (nextElementPos_loop_sound _ _ _ _ _ _ _ H) as (A & B & C & D).
  repeat split; try lia; try assumption.
  destruct (PlainJs.charAt_in_range input (p + 1)) as [c Hc].
  - assert (0 <= p)%Z; [|lia].
    unfold charAt in B. destruct (Z.ltb_spec p 0); [discriminate|assumption].
  - exists c. split; [assumption|]. rewrite Hc in C. exact C.
Qed.

Lemma nextElementPos_sound_witness :
  charAt (str "if (a < b) x = <p>t</p>;") 15 = Some "<"%char.
Proof.
  exact (proj1 (proj2 (nextElementPos_sound (str "if (a < b) x = <p>t</p>;") 0 15
                         eq_refl))).
Defined.

End ScanFacts.

(* ------------------------------------------------------------------ *)
(** ** Texts without comments *)

Module NoComment.

Import Comments CommentsSpec CommentsFacts.

Section Plain.

Variable input : jsstr.
Hypothesis no_slash : ~ In "/"%char input.

Lemma not_slash_at (i : nat) : nth_error input i <> Some "/"%char.
Proof. intros H. apply no_slash. eapply nth_error_In. exact H. Qed.

(** Without a slash the scanner never enters a comment. *)
Lemma body_stays_plain (l : Loop) (char : ascii) :
  inComment (state l) = false ->
  nth_error input (current l) = Some char ->
  inComment (state (body input char l)) = false.
Proof.
  intros Hc Hchar.
  destruct l as [[a b c d e f g h] cur arr].
  unfold inComment in Hc. simpl in Hc, Hchar.
  destruct a; [discriminate|]. destruct b; [discriminate|].
  destruct c; [discriminate|].
  unfold body, plain, finish, inComment; simpl.
  assert (H1 : optIs (peekNext input cur) "/" = false).
  { destruct (optIs (peekNext input cur) "/") eqn:E; [|reflexivity].
    apply peekNext_is in E. now apply not_slash_at in E. }
  assert (H2 : opt2Is (peekNext2 input cur) "/" "*" = false).
  { destruct (opt2Is (peekNext2 input cur) "/" "*") eqn:E; [|reflexivity].
    apply peekNext2_is in E as [E _]. now apply not_slash_at in E. }
  assert (H3 : Ascii.eqb char "/" = false).
  { destruct (Ascii.eqb_spec char "/") as [->|]; [|reflexivity].
    now apply not_slash_at in Hchar. }
  rewrite H2, H3.
  repeat match goal with
    | |- context [if ?x then _ else _] => destruct x; simpl
    end; reflexivity.
Qed.

Lemma Forall2_same (l l' : jsstr) :
  Forall2 (fun c c' => c' = stripped false c) l l' -> l' = l.
Proof. induction 1; simpl in *; congruence. Qed.

Lemma loop_identity (fuel : nat) :
  forall l,
    filled input (current l) (newInput l) (firstn (current l) input) ->
    inComment (state l) = false ->
    length input <= fuel + current l ->
    join (newInput (loop input fuel l)) = input.
Proof.
  assert (Hdone : forall l,
             filled input (current l) (newInput l) (firstn (current l) input) ->
             length input <= current l ->
             join (newInput l) = input).
  { intros l Hf Hle.
    assert (E : current l = length input) by (destruct Hf as (_ & _ & _ & ? & _); lia).
    rewrite E in Hf. destruct (filled_all input _ _ Hf) as (Hj & _).
    rewrite Hj. apply firstn_all. }
  induction fuel as [|fuel IH]; intros l Hf Hc Hfuel.
  - simpl. apply Hdone; [assumption|lia].
  - simpl. destruct (nth_error input (current l)) as [char|] eqn:Hchar.
    + destruct (body_segment input l char _ Hf Hchar) as [(delta & Hd & Hseg) Hlt].
      pose proof (body_stays_plain l char Hc Hchar) as Hc'.
      rewrite Hc, Hc' in Hseg. simpl in Hseg.
      apply Forall2_same in Hseg.
      assert (Hcur : current (body input char l) = current l + length delta).
      { destruct Hd as (Hl & _). destruct Hf as (Hl0 & _).
        rewrite Hl, length_app. lia. }
      apply IH; [|assumption|lia].
      rewrite Hcur, ParserFacts.firstn_plus, <- Hseg. rewrite <- Hcur. exact Hd.
    + apply Hdone; [assumption|]. now apply nth_error_None.
Qed.

End Plain.

(** X7.  A text without a slash has no comment: [removeComments] returns it
    unchanged. *)
Theorem removeComments_without_slash (input : jsstr) :
  ~ In "/"%char input -> removeComments input = input.
Proof.
  intros H. apply (loop_identity input H (length input) (start input)).
  - apply filled_start.
  - reflexivity.
  - lia.
Qed.

Lemma removeComments_without_slash_witness :
  removeComments (str "var s = '{* a *}'; x = a < b;") =
  str "var s = '{* a *}'; x = a < b;".
Proof.
  apply removeComments_without_slash.
  simpl. intros H. repeat destruct H as [H|H]; try discriminate H. exact H.
Defined.

End NoComment.

(* ------------------------------------------------------------------ *)
(** ** The code generator *)

Module GeneratorFacts.

Import Generator.

Lemma includes_prefix (p s : jsstr) : includes p (p ++ s) = true.
Proof.
  destruct (p ++ s) eqn:E; simpl; rewrite <- E, HintFacts.startsWith_app; reflexivity.
Qed.

Section Program.

Variable htmlDecode : jsstr -> jsstr.
Variable createElement : jsstr.
Variable addUseStrict : bool.

Lemma mapBody_codes (body : list Node) :
  forall codes body',
    (fix mapBody (l : list Node) : Result (list jsstr * list Node) :=
       match l with
       | [] => Ok ([], [])
       | n :: r =>
           '(c, n) <- generateCode htmlDecode createElement addUseStrict n false ;;
           '(cs, r) <- mapBody r ;;
           Ok (c :: cs, n :: r)
       end) body = Ok (codes, body') ->
    Forall2 (fun n c => exists n',
                 generateCode htmlDecode createElement addUseStrict n false = Ok (c, n'))
            body codes.
Proof.
  induction body as [|n r IH]; intros codes body' H.
  - inversion H; subst. constructor.
  - simpl in H.
    destruct (generateCode htmlDecode createElement addUseStrict n false)
      as [[c n']|] eqn:En; [|discriminate].
    cbn [bind] in H.
    match type of H with
    | bind ?e _ = _ => destruct e as [[cs r']|] eqn:Er; [|discriminate]
    end.
    cbn [bind] in H. inversion H; subst.
    constructor; [eauto|]. exact (IH cs r' eq_refl).
Qed.

(** X14.  The text of a program is the texts of its nodes one after the other,
    after the strict-mode prefix exactly when [addUseStrict] is set and
    neither directive is in that text.  So with [addUseStrict] set the
    result always has a strict directive, in double or in single quotes,
    and with [addUseStrict] unset nothing is added. *)
Theorem program_strict_directive (body : list Node) (skipIndent : bool)
        (out : jsstr) (node' : Node) :
  generateCode htmlDecode createElement addUseStrict (Program body) skipIndent
    = Ok (out, node') ->
  exists codes,
    Forall2 (fun n c => exists n',
                 generateCode htmlDecode createElement addUseStrict n false = Ok (c, n'))
            body codes /\
    out = (if addUseStrict && negb (includes useStrictDouble (joinStr [] codes)) &&
              negb (includes useStrictSingle (joinStr [] codes))
           then useStrictPrefix else []) ++ joinStr [] codes /\
    (addUseStrict = true ->
     includes useStrictDouble out || includes useStrictSingle out = true) /\
    (addUseStrict = false -> out = joinStr [] codes).
Proof.
  cbn [generateCode]. intros H.
  match type of H with
  | bind ?e _ = _ => destruct e as [[codes body']|] eqn:Em; [|discriminate]
  end.
  cbn [bind] in H.
  exists codes. split; [eapply mapBody_codes; exact Em|].
  assert (Hout : out = (if addUseStrict &&
                           negb (includes useStrictDouble (joinStr [] codes)) &&
                           negb (includes useStrictSingle (joinStr [] codes))
                        then useStrictPrefix else []) ++ joinStr [] codes).
  { destruct (addUseStrict && negb (includes useStrictDouble (joinStr [] codes)) &&
              negb (includes useStrictSingle (joinStr [] codes)));
      cbn [app]; congruence. }
  clear H. split; [exact Hout|]. rewrite Hout. clear Hout.
  destruct addUseStrict.
  - split; [intros _|discriminate].
    destruct (includes useStrictDouble (joinStr [] codes)) eqn:Ed;
      [|destruct (includes useStrictSingle (joinStr [] codes)) eqn:Es];
      cbn [andb negb app].
    + now rewrite Ed.
    + rewrite Es. apply orb_true_r.
    + unfold useStrictPrefix. rewrite <- app_assoc, includes_prefix. reflexivity.
  - split; [discriminate|reflexivity].
Qed.

(** X15.  An element whose children are a JS text and then an element.  The
    element's text follows the JS text directly, with no comma, when the
    JS text (trimmed) ends with [&&], [?], [(], [:] or [ return], and also
    when it has a parenthesis; otherwise a comma and a space separate the
    two.  The nested element is generated without its line break and
    indent. *)
Theorem js_child_then_element (name : jsstr) (isClass : bool) (j : jsstr)
        (pj : option Z) (e : Node) (pe pos : option Z) (stackCount : Z)
        (skipIndent : bool) (code : jsstr) (e' : Node) :
  generateCode htmlDecode createElement addUseStrict e true = Ok (code, e') ->
  generateCode htmlDecode createElement addUseStrict
    (CreateElement name isClass []
       [ChildValue e_child_js (Some j) pj; ChildElement e pe] pos stackCount)
    skipIndent =
  Ok ((elementStart createElement name isClass stackCount skipIndent ++ str "null") ++
      (str ", " ++ j ++
       (if endsAsOperand (trim j) || includes (str "(") j || includes (str ")") j
        then [] else str ", ") ++ code) ++ str ")",
      CreateElement name isClass []
        [ChildValue e_child_js (Some j) pj; ChildElement e' pe] pos stackCount).
Proof.
  intros He.
  cbn -[elementStart endsAsOperand trim includes str].
  rewrite He.
  cbn -[elementStart endsAsOperand trim includes str].
  destruct (endsAsOperand (trim j)) eqn:Eo;
    destruct (includes (str "(") j) eqn:E1;
    destruct (includes (str ")") j) eqn:E2;
    cbn -[elementStart str]; rewrite ?app_nil_r, <- ?app_assoc; reflexivity.
Qed.

End Program.

Lemma js_child_then_element_witness :
  generateCode (fun s => s) (str "h") true
    (CreateElement (str "div") false []
       [ChildValue e_child_js (Some (str "cond && ")) None;
        ChildElement (CreateElement (str "X") true [] [] None 1) None] None 0)
    false =
  Ok (str "h(" ++ [dquote] ++ str "div" ++ [dquote] ++
      str ", null, cond &&  h(X, null))",
      CreateElement (str "div") false []
       [ChildValue e_child_js (Some (str "cond && ")) None;
        ChildElement (CreateElement (str "X") true [] [] None 1) None] None 0).
Proof.
  exact (js_child_then_element (fun s => s) (str "h") true (str "div") false
           (str "cond && ") None (CreateElement (str "X") true [] [] None 1)
           None None 0 false (str " h(X, null)")
           (CreateElement (str "X") true [] [] None 1) eq_refl).
Defined.

Section NodeInduction.

Variable P : Node -> Prop.

Definition propHolds (p : ElementProp Node) : Prop :=
  match prop_value p with
  | PObject n => P n
  | _ => True
  end.

Definition childHolds (c : Child Node) : Prop :=
  match c with
  | ChildElement n _ => P n
  | ChildValue _ _ _ => True
  end.

Hypothesis HProgram : forall body, Forall P body -> P (Program body).
Hypothesis HJs : forall v p s, P (JsChunk v p s).
Hypothesis HElement :
  forall name isClass props children pos stackCount,
    Forall propHolds props -> Forall childHolds children ->
    P (CreateElement name isClass props children pos stackCount).
Hypothesis HToken : forall t, P (TokenObj t).
Hypothesis HArray : forall nodes, Forall P nodes -> P (NodeArray nodes).

Fixpoint Node_induction (n : Node) : P n :=
  match n with
  | Program body =>
      HProgram body
        ((fix go (l : list Node) : Forall P l :=
            match l with
            | [] => Forall_nil P
            | x :: r => Forall_cons x (Node_induction x) (go r)
            end) body)
  | JsChunk v p s => HJs v p s
  | CreateElement name isClass props children pos stackCount =>
      HElement name isClass props children pos stackCount
        ((fix go (l : list (ElementProp Node)) : Forall propHolds l :=
            match l with
            | [] => Forall_nil propHolds
            | x :: r =>
                Forall_cons x
                  (match x as x0 return propHolds x0 with
                   | mkProp nm v ps =>
                       match v as v0 return propHolds (mkProp nm v0 ps) with
                       | PObject m => Node_induction m
                       | PNull => I
                       | PString _ => I
                       end
                   end) (go r)
            end) props)
        ((fix go (l : list (Child Node)) : Forall childHolds l :=
            match l with
            | [] => Forall_nil childHolds
            | x :: r =>
                Forall_cons x
                  (match x as x0 return childHolds x0 with
                   | ChildElement m _ => Node_induction m
                   | ChildValue _ _ _ => I
                   end) (go r)
            end) children)
  | TokenObj t => HToken t
  | NodeArray nodes =>
      HArray nodes
        ((fix go (l : list Node) : Forall P l :=
            match l with
            | [] => Forall_nil P
            | x :: r => Forall_cons x (Node_induction x) (go r)
            end) nodes)
  end.

End NodeInduction.

Section Mutation.

Import GeneratorSpec.

Variable htmlDecode : jsstr -> jsstr.
Variable createElement : jsstr.
Variable addUseStrict : bool.

Let gen := generateCode htmlDecode createElement addUseStrict.

(** The node a call returns is the drained node. *)
Definition drains (n : Node) : Prop :=
  forall skipIndent out n', gen n skipIndent = Ok (out, n') -> n' = drained n.

Definition drainedValue (pv : PropValue Node) : PropValue Node :=
  match pv with
  | PNull => PNull
  | PString s => PString s
  | PObject v => if isJsWithElements v then PObject (NodeArray []) else PObject (drained v)
  end.

Definition drainedChild (c : Child Node) : Child Node :=
  match c with
  | ChildElement v p => ChildElement (drained v) p
  | ChildValue _ _ _ => c
  end.

Lemma propValueCode_drained (pv : PropValue Node) (text : jsstr) (pv' : PropValue Node) :
  match pv with PObject n => drains n | _ => True end ->
  propValueCode gen pv = Ok (text, pv') ->
  pv' = drainedValue pv.
Proof.
  intros Hd H. destruct pv as [|s|n]; simpl in H; try (inversion H; reflexivity).
  assert (Hother : forall r, ('(c, n0) <- gen n true ;; Ok (c, PObject n0)) = Ok r ->
                             isJsWithElements n = false ->
                             snd r = drainedValue (PObject n)).
  { intros r Hr Hf. destruct (gen n true) as [[c n0]|] eqn:Eg; [|discriminate].
    simpl in Hr. inversion Hr; subst. simpl. rewrite Hf.
    f_equal. eapply Hd. exact Eg. }
  destruct n as [body|v p s|nm ic ps cs p sc|t|nodes];
    try (apply (Hother (text, pv') H eq_refl)).
  destruct nodes as [|x r]; [apply (Hother (text, pv') H eq_refl)|].
  destruct x as [body|v p s|nm ic ps cs p sc|t|nodes];
    try (apply (Hother (text, pv') H eq_refl)).
  destruct (TokenType_eqb (tok_type t) e_child_js_start) eqn:Et.
  - match type of H with
    | bind ?e _ = _ => destruct e; [|discriminate]
    end.
    simpl in H. inversion H; subst. simpl. now rewrite Et.
  - apply (Hother (text, pv') H). simpl. exact Et.
Qed.

Lemma propsLoop_drained (props : list (ElementProp Node)) :
  forall propJs propJs' props',
    Forall (propHolds drains) props ->
    propsLoop gen props propJs = Ok (propJs', props') ->
    props' = map (fun p => mkProp (prop_name p) (drainedValue (prop_value p))
                                  (prop_pos p)) props.
Proof.
  induction props as [|p r IH]; intros propJs propJs' props' Hall H.
  - inversion H; reflexivity.
  - inversion Hall as [|? ? Hp Hr]; subst.
    cbn [propsLoop] in H.
    destruct (propValueCode gen (prop_value p)) as [[propValue pv]|] eqn:Ev;
      [|discriminate].
    cbn [bind] in H.
    match type of H with
    | bind ?e _ = _ => destruct e as [[pj r']|] eqn:Er; [|discriminate]
    end.
    cbn [bind] in H. inversion H; subst. cbn [map]. f_equal.
    + f_equal. eapply propValueCode_drained; [exact Hp|exact Ev].
    + eapply IH; [exact Hr|exact Er].
Qed.

Lemma emitChild_drained (children : list (Child Node)) (kinds : Kinds)
      (m : nat) (c : Child Node) (e e' : Emit) (c' : Child Node) :
  childHolds drains c ->
  emitChild htmlDecode gen children kinds m c e = Ok (e', c') ->
  c' = drainedChild c.
Proof.
  intros Hc H. unfold emitChild in H.
  destruct c as [t v p|n p].
  - destruct t; simpl in H;
      repeat match type of H with
        | context [match ?x with _ => _ end] => destruct x; simpl in H
        end;
      try discriminate; inversion H; reflexivity.
  - simpl in Hc. cbn [drainedChild].
    repeat match type of H with
      | bind ?x _ = _ =>
          let E := fresh "E" in destruct x eqn:E; cbn [bind] in H; [|discriminate]
      end.
    match goal with
    | E : bind (gen n ?s) _ = Ok _ |- _ =>
        destruct (gen n s) as [[text n']|] eqn:Eg; [|discriminate];
        cbn [bind] in E; inversion E; subst
    end.
    destruct a0; inversion H; subst; f_equal; eapply Hc; exact Eg.
Qed.

Lemma emitLoop_drained (children : list (Child Node)) (kinds : Kinds)
      (rest : list (Child Node)) :
  forall m e e' rest',
    Forall (childHolds drains) rest ->
    emitLoop htmlDecode gen children kinds m rest e = Ok (e', rest') ->
    rest' = map drainedChild rest.
Proof.
  induction rest as [|c r IH]; intros m e e' rest' Hall H.
  - inversion H; reflexivity.
  - inversion Hall as [|? ? Hc Hr]; subst.
    cbn [emitLoop] in H.
    destruct (emitChild htmlDecode gen children kinds m c e) as [[e1 c1]|] eqn:Ec;
      [|discriminate].
    cbn [bind] in H.
    match type of H with
    | bind ?x _ = _ => destruct x as [[e2 r2]|] eqn:Er; [|discriminate]
    end.
    cbn [bind] in H. inversion H; subst. cbn [map]. f_equal.
    + eapply emitChild_drained; [exact Hc|exact Ec].
    + eapply IH; [exact Hr|exact Er].
Qed.

Lemma mapBody_drained (body : list Node) :
  forall codes body',
    Forall drains body ->
    (fix mapBody (l : list Node) : Result (list jsstr * list Node) :=
       match l with
       | [] => Ok ([], [])
       | n :: r =>
           '(c, n) <- generateCode htmlDecode createElement addUseStrict n false ;;
           '(cs, r) <- mapBody r ;;
           Ok (c :: cs, n :: r)
       end) body = Ok (codes, body') ->
    body' = map drained body.
Proof.
  induction body as [|n r IH]; intros codes body' Hall H.
  - inversion H; reflexivity.
  - inversion Hall as [|? ? Hn Hr]; subst. simpl in H.
    destruct (generateCode htmlDecode createElement addUseStrict n false)
      as [[c n']|] eqn:En; [|discriminate].
    cbn [bind] in H.
    match type of H with
    | bind ?x _ = _ => destruct x as [[cs r']|] eqn:Er; [|discriminate]
    end.
    cbn [bind] in H. inversion H; subst. cbn [map]. f_equal.
    + eapply Hn. exact En.
    + exact (IH cs r' Hr eq_refl).
Qed.

(** X16.  What [generateCode] does to the tree it is given.  When it returns,
    the tree is the one it was given with every array of JS with elements
    among the prop values emptied (by the [shift] loop), and with no other
    change: names, props, children, positions and depths are as before. *)
Theorem generateCode_drains (node : Node) (skipIndent : bool) (out : jsstr)
        (node' : Node) :
  generateCode htmlDecode createElement addUseStrict node skipIndent
    = Ok (out, node') ->
  node' = drained node.
Proof.
  revert skipIndent out node'.
  change (drains node).
  induction node as [body Hbody|v p s|name isClass props children pos sc Hprops Hchildren
                    |t|nodes _] using Node_induction;
    intros skipIndent out node' H.
  - cbn [gen generateCode] in H.
    match type of H with
    | bind ?x _ = _ => destruct x as [[codes body']|] eqn:Em; [|discriminate]
    end.
    cbn [bind] in H. rewrite (mapBody_drained body codes body' Hbody Em) in H.
    cbn [drained].
    destruct (_ && _); inversion H; reflexivity.
  - inversion H; reflexivity.
  - unfold gen in H. cbn [generateCode] in H.
    match type of H with
    | bind ?x _ = _ => destruct x as [[text props']|] eqn:Ep; [|discriminate]
    end.
    cbn [bind] in H.
    assert (Hp : props' = map (fun p => mkProp (prop_name p)
                                               (drainedValue (prop_value p))
                                               (prop_pos p)) props).
    { destruct props as [|p0 r0]; [inversion Ep; reflexivity|].
      match type of Ep with
      | bind ?x _ = _ => destruct x as [[propJs ps]|] eqn:El; [|discriminate]
      end.
      cbn [bind] in Ep. inversion Ep; subst.
      eapply propsLoop_drained; [exact Hprops|exact El]. }
    match type of H with
    | bind ?x _ = _ => destruct x as [kinds|] eqn:Ek; [|discriminate]
    end.
    cbn [bind] in H.
    match type of H with
    | bind ?x _ = _ => destruct x as [[e children']|] eqn:Ee; [|discriminate]
    end.
    cbn [bind] in H. inversion H; subst.
    rewrite (emitLoop_drained _ _ _ _ _ _ _ Hchildren Ee).
    cbn [drained]. unfold drainedValue, drainedChild. reflexivity.
  - unfold gen in H. cbn [generateCode] in H.
    destruct (tok_type t); inversion H; reflexivity.
  - discriminate.
Qed.

End Mutation.

Lemma generateCode_drains_witness :
  GeneratorSpec.drained
    (CreateElement (str "a") false
       [mkProp (str "b")
          (PObject (NodeArray [TokenObj (token e_child_js_start (str "x && ") None);
                               CreateElement (str "c") false [] [] None 1;
                               TokenObj (token e_child_js_end (str " ") None)]))
          None] [] None 0)
  = CreateElement (str "a") false
       [mkProp (str "b") (PObject (NodeArray [])) None] [] None 0.
Proof.
  symmetry.
  apply (generateCode_drains (fun s => s) (str "h") true _ false
           (str "h(" ++ [dquote] ++ str "a" ++ [dquote] ++ str ", {b: x &&  h(" ++
            [dquote] ++ str "c" ++ [dquote] ++ str ", null) })")).
  vm_compute. reflexivity.
Defined.

Lemma program_strict_directive_witness :
  includes useStrictDouble (useStrictPrefix ++ str "var a;") ||
  includes useStrictSingle (useStrictPrefix ++ str "var a;") = true.
Proof.
  destruct (program_strict_directive (fun s => s) (str "h") true
              [JsChunk (str "var a;") None 0] false
              (useStrictPrefix ++ str "var a;")
              (Program [JsChunk (str "var a;") None 0]) eq_refl)
    as (codes & _ & _ & H & _).
  exact (H eq_refl).
Defined.

End GeneratorFacts.

(* ------------------------------------------------------------------ *)
(** ** The parser ends *)

Module ParserEnds.

Import Parser ParserSpec.

#[local] Arguments nth_error : simpl never.

(** A result that is not the recursion bound of the model, and that, when
    it is a value, has moved [current] to [c] or further. *)
Definition endsFrom {A} (c : nat) (r : Result (A * Vars)) : Prop :=
  match r with
  | Ok (_, v') => c <= current v'
  | Throw e => e <> OutOfFuel
  end.

Lemma endsFrom_bind {A B} (c c' : nat) (e : Result (A * Vars))
      (k : A * Vars -> Result (B * Vars)) :
  endsFrom c e ->
  (forall x v1, c <= current v1 -> endsFrom c' (k (x, v1))) ->
  endsFrom c' (bind e k).
Proof.
  destruct e as [[x v1]|err]; simpl; intros He Hk; [now apply Hk|assumption].
Qed.

Section Walk.

Variable tokens : list Token.
Variable input : jsstr.
Variable maxRecursiveCalls : Z.
Variable pragmaFrag : jsstr.

(** The tokens left to read. *)
Definition left (v : Vars) : nat := length tokens - current v.

Definition walkEnds (fuel : nat) : Prop :=
  forall v sc st,
    current v < length tokens -> 2 * left v <= fuel + 1 ->
    endsFrom (S (current v))
             (walk tokens input maxRecursiveCalls pragmaFrag fuel v sc st).

Definition elementEnds (fuel : nat) : Prop :=
  forall v node value,
    2 * left v <= fuel ->
    endsFrom (current v)
             (elementLoop tokens input maxRecursiveCalls pragmaFrag fuel v node value).

Definition nodesEnds (fuel : nat) : Prop :=
  forall v sc token nodes,
    2 * left v <= fuel ->
    endsFrom (current v)
             (nodesLoop tokens input maxRecursiveCalls pragmaFrag fuel v sc token nodes).

Lemma in_range (v : Vars) (t : Token) :
  nth_error tokens (current v) = Some t -> current v < length tokens.
Proof. intros H. apply nth_error_Some. congruence. Qed.

Lemma walk_ends_step (fuel : nat) :
  elementEnds fuel -> nodesEnds fuel -> walkEnds (S fuel).
Proof.
  intros IHe IHn v sc st Hlt Hfuel. unfold left in *. simpl.
  destruct (_ >? _)%Z; [simpl; discriminate|].
  destruct (nth_error tokens (current v)) as [t|] eqn:Htok; [|simpl; discriminate].
  destruct (tok_type t); try (simpl; discriminate).
  - simpl. lia.
  - eapply endsFrom_bind.
    + apply IHe. unfold left. simpl. lia.
    + intros x v1 Hv1. simpl in Hv1 |- *. lia.
  - destruct st as [[]|]; try (simpl; discriminate).
    match goal with
    | |- endsFrom _ ?r =>
        assert (Hx : endsFrom (S (current v)) r);
        [apply IHn; unfold left; simpl; lia|exact Hx]
    end.
Qed.

Lemma nodes_ends_step (fuel : nat) :
  walkEnds fuel -> nodesEnds fuel -> nodesEnds (S fuel).
Proof.
  intros IHw IHn v sc token nodes Hfuel. unfold left in *. simpl.
  destruct (nth_error tokens (current v)) as [t|] eqn:Htok; [|simpl; discriminate].
  pose proof (in_range v t Htok) as Hlt.
  destruct (tok_type t); try (simpl; discriminate).
  - eapply endsFrom_bind.
    + apply IHw; unfold left; simpl; lia.
    + intros x v1 Hv1. simpl in Hv1.
      match goal with
      | |- endsFrom _ ?r =>
          assert (Hx : endsFrom (current v1) r);
          [apply IHn; unfold left; lia|]
      end.
      destruct (nodesLoop _ _ _ _ _ _ _ _ _) as [[n v2]|]; simpl in Hx |- *;
        [lia|assumption].
  - simpl. lia.
Qed.

Lemma element_ends_step (fuel : nat) :
  walkEnds fuel -> elementEnds fuel -> elementEnds (S fuel).
Proof.
  intros IHw IHe v node value Hfuel. unfold left in *. simpl.
  destruct (nth_error tokens (current v)) as [t|] eqn:Htok; [|simpl; lia].
  pose proof (in_range v t Htok) as Hlt.
  assert (Hloop : forall v1 node1 value1,
             S (current v) <= current v1 ->
             endsFrom (current v)
               (elementLoop tokens input maxRecursiveCalls pragmaFrag fuel
                            v1 node1 value1)).
  { intros v1 node1 value1 Hv1.
    assert (Hx : endsFrom (current v1)
                   (elementLoop tokens input maxRecursiveCalls pragmaFrag fuel
                                v1 node1 value1))
      by (apply IHe; unfold left; lia).
    destruct (elementLoop _ _ _ _ _ _ _ _) as [[n v2]|]; simpl in Hx |- *;
      [lia|assumption]. }
  destruct (tok_type t); try (simpl; discriminate).
  - (* e_start *)
    eapply endsFrom_bind.
    + apply IHw; unfold left; simpl; lia.
    + intros x v1 Hv1. simpl in Hv1. apply Hloop. lia.
  - (* e_end *)
    destruct (_ && _); simpl; [discriminate|lia].
  - (* e_prop *)
    eapply (endsFrom_bind (S (current v))).
    + unfold nextTokenType. simpl.
      destruct (nth_error tokens (S (current v))) as [t2|] eqn:Htok2; simpl;
        [|lia].
      pose proof (in_range (set_current (S (current v)) v) t2 Htok2) as Hlt2.
      simpl in Hlt2.
      destruct (tok_type t2); simpl; try lia.
      * eapply endsFrom_bind.
        -- apply IHw; unfold left; simpl; lia.
        -- intros x v1 Hv1. simpl in Hv1 |- *. lia.
      * eapply endsFrom_bind.
        -- apply IHw; unfold left; simpl; lia.
        -- intros x v1 Hv1. simpl in Hv1 |- *. lia.
    + intros x v1 Hv1. apply Hloop. exact Hv1.
  - destruct (negb _); apply Hloop; simpl; lia.
  - destruct (negb _); apply Hloop; simpl; lia.
  - apply Hloop; simpl; lia.
  - apply Hloop; simpl; lia.
  - apply Hloop; simpl; lia.
Qed.

Lemma all_end (fuel : nat) : walkEnds fuel /\ elementEnds fuel /\ nodesEnds fuel.
Proof.
  induction fuel as [|fuel (IHw & IHe & IHn)].
  - repeat split.
    + intros v sc st Hlt Hfuel. unfold left in Hfuel. lia.
    + intros v node value Hfuel. unfold left in Hfuel. simpl.
      destruct (nth_error tokens (current v)) eqn:E; [|simpl; lia].
      apply in_range in E. lia.
    + intros v sc token nodes Hfuel. unfold left in Hfuel. simpl.
      destruct (nth_error tokens (current v)) eqn:E; [|simpl; discriminate].
      apply in_range in E. lia.
  - repeat split.
    + now apply walk_ends_step.
    + now apply element_ends_step.
    + now apply nodes_ends_step.
Qed.

Lemma bodyLoop_ends (fuel : nat) :
  forall v body,
    2 * left v <= fuel ->
    endsFrom (current v)
             (bodyLoop tokens input maxRecursiveCalls pragmaFrag fuel v body).
Proof.
  induction fuel as [|fuel IH]; intros v body Hfuel; unfold left in *; simpl;
    destruct (nth_error tokens (current v)) as [t|] eqn:Htok; try (simpl; lia).
  - apply in_range in Htok. lia.
  - pose proof (in_range v t Htok) as Hlt.
    eapply endsFrom_bind.
    + apply (proj1 (all_end fuel)); unfold left; lia.
    + intros x v1 Hv1.
      match goal with
      | |- endsFrom _ ?r =>
          assert (Hx : endsFrom (current v1) r);
          [apply IH; unfold left; lia|]
      end.
      destruct (bodyLoop _ _ _ _ _ _ _) as [[b v2]|]; simpl in Hx |- *;
        [lia|assumption].
Qed.

End Walk.

(** X2.  [parser] ends for every token list: it returns a tree or throws one of
    the errors of the program, within the two steps a token that the
    model allows (a walk reads one token or more in each call and in each
    iteration of its loops). *)
Theorem parser_ends (cfg : Config) (tokens : list Token) (input : jsstr) :
  fst (parser cfg tokens input) <> Throw OutOfFuel.
Proof.
  unfold parser, Parser.parser. simpl.
  match goal with
  | |- bind ?e _ <> _ =>
      assert (Hx : endsFrom 0 e);
      [apply bodyLoop_ends; unfold left; simpl; lia|]
  end.
  match type of Hx with
  | endsFrom _ ?e => destruct e as [[body v]|err]
  end; simpl in *.
  - destruct (negb _); discriminate.
  - congruence.
Qed.

End ParserEnds.

(* ------------------------------------------------------------------ *)
(** ** The tokenizer ends *)

Module LexerEnds.

Import Lexer.

(** The error kept in the state is one of the program's. *)
Definition okState (st : State) : Prop := errorMessage st <> Some OutOfFuel.

Definition okSwitch (v : Vars) (r : Result Switch) : Prop :=
  match r with
  | Ok (Continue st' v') | Ok (Break st' v') | Ok (Nested st' v') =>
      okState st' /\ loopCount v' = loopCount v
  | Throw e => e <> OutOfFuel
  end.

Definition okFlow (v : Vars) (r : Result Flow) : Prop :=
  match r with
  | Ok (Next st' v') => okState st' /\ loopCount v' = loopCount v
  | Ok (Return v') => loopCount v' = loopCount v
  | Throw e => e <> OutOfFuel
  end.

Ltac cases :=
  repeat (match goal with
          | |- context [match ?x with _ => _ end] =>
              lazymatch x with
              | context [match _ with _ => _ end] => fail
              | _ => destruct x eqn:?
              end
          end; simpl in *; try discriminate).

Lemma propSwitch_ok (input : jsstr) (st : State) (v : Vars) :
  okState st -> okSwitch v (propSwitch input st v).
Proof.
  intros Hst. unfold okSwitch, propSwitch, okState, bind, getCur, setCur, push in *.
  cases; auto.
Qed.

Lemma breakBlock_ok (input : jsstr) (st : State) (v : Vars) :
  okState st -> okFlow v (breakBlock input st v).
Proof.
  intros Hst.
  unfold okFlow, breakBlock, okState, bind, lastTokenType, popElement, push in *.
  cases; auto.
Qed.

Lemma tagSwitch_ok (input : jsstr) (st : State) (v : Vars) :
  okState st ->
  okState (fst (tagSwitch input st v)) /\
  loopCount (snd (tagSwitch input st v)) = loopCount v.
Proof.
  intros Hst. unfold tagSwitch, okState in *.
  cases; auto; split; auto; discriminate.
Qed.

Lemma childSwitch_ok (input : jsstr) (st : State) (v : Vars) :
  okState st ->
  match childSwitch input st v with
  | Ok st' => okState st'
  | Throw e => e <> OutOfFuel
  end.
Proof.
  intros Hst. unfold childSwitch, okState, bind, getCur, setCur in *.
  cases; auto.
Qed.

Lemma addChildBlock_ok (st : State) (v : Vars) :
  okState st ->
  match addChildBlock st v with
  | Ok (st', v') => okState st' /\ loopCount v' = loopCount v
  | Throw e => e <> OutOfFuel
  end.
Proof.
  intros Hst. unfold addChildBlock, okState, bind, getCur, setCur, push in *.
  cases; auto.
Qed.

Lemma closeBlock_ok (st : State) (v : Vars) :
  okState st ->
  okState (fst (closeBlock st v)) /\
  loopCount (snd (closeBlock st v)) = loopCount v.
Proof.
  intros Hst. unfold closeBlock, okState, popElement, pushElement, push in *.
  cases; auto.
Qed.

#[local] Arguments propSwitch : simpl never.
#[local] Arguments breakBlock : simpl never.
#[local] Arguments tagSwitch : simpl never.
#[local] Arguments childSwitch : simpl never.
#[local] Arguments addChildBlock : simpl never.
#[local] Arguments closeBlock : simpl never.
#[local] Arguments loopCheck : simpl never.
#[local] Arguments nextElementPos : simpl never.
#[local] Arguments Z.mul : simpl never.
#[local] Arguments Z.add : simpl never.
#[local] Arguments Z.sub : simpl never.
#[local] Arguments Z.of_nat : simpl never.

Section Loops.

Variable input : jsstr.
Variable maxRecursiveCalls : Z.

Let len : Z := Z.of_nat (length input).

(** The fuel covers the loop iterations that [loopCheck] still allows:
    two units each, and [k] more. *)
Definition room (fuel : nat) (v : Vars) (k : Z) : Prop :=
  (loopCount v <= len)%Z /\
  (2 * (len - loopCount v) + k <= Z.of_nat fuel)%Z.

Definition varsFrom (c : Z) (r : Result Vars) : Prop :=
  match r with
  | Ok v' => (c <= loopCount v' <= len)%Z
  | Throw e => e <> OutOfFuel
  end.

Definition flowFrom (c : Z) (r : Result Flow) : Prop :=
  match r with
  | Ok (Next st' v') => okState st' /\ (c <= loopCount v' <= len)%Z
  | Ok (Return v') => (c <= loopCount v' <= len)%Z
  | Throw e => e <> OutOfFuel
  end.

Definition elementLoopEnds (fuel : nat) : Prop :=
  forall st v, okState st -> room fuel v 1 ->
               flowFrom (loopCount v) (elementLoop input maxRecursiveCalls fuel st v).

Definition propLoopEnds (fuel : nat) : Prop :=
  forall st v, okState st -> room fuel v 1 ->
               flowFrom (loopCount v) (propLoop input maxRecursiveCalls fuel st v).

Definition callEnds (fuel : nat) : Prop :=
  forall v startPosition firstNode,
    room fuel v 2 ->
    varsFrom (loopCount v)
             (tokenizeElement input maxRecursiveCalls fuel v startPosition firstNode).

Lemma loopCheck_ok (v : Vars) :
  (loopCount v <= len)%Z ->
  match loopCheck input v with
  | Ok v' => loopCount v' = (loopCount v + 1)%Z /\ (loopCount v' <= len)%Z
  | Throw e => e <> OutOfFuel
  end.
Proof.
  intros H. unfold loopCheck. simpl.
  fold len. destruct (Z.gtb_spec (loopCount v + 1) len); simpl;
    [discriminate|split; [reflexivity|lia]].
Qed.

Lemma flowFrom_weaken (c c' : Z) (r : Result Flow) :
  (c' <= c)%Z -> flowFrom c r -> flowFrom c' r.
Proof.
  intros H. destruct r as [[st v|v]|e]; simpl; intuition lia.
Qed.

Lemma call_ends_step (fuel : nat) : elementLoopEnds fuel -> callEnds (S fuel).
Proof.
  intros IHe v sp fn [Hlc Hfuel]. unfold elementLoopEnds, room in IHe. unfold len in *. simpl.
  destruct (_ >? _)%Z; [simpl; discriminate|].
  match goal with
  | |- varsFrom _ (bind (elementLoop _ _ _ ?st ?v1) _) =>
      assert (Hx : flowFrom (loopCount v) (elementLoop input maxRecursiveCalls fuel st v1));
      [ apply (flowFrom_weaken (loopCount v1)); [destruct (_ && _); simpl; lia|];
        apply IHe; [unfold okState; simpl; discriminate|];
        destruct (_ && _); simpl; lia
      | destruct (elementLoop input maxRecursiveCalls fuel st v1) as [[st' v'|v']|e] ]
  end; simpl in Hx |- *.
  - destruct Hx as [Hst Hv]. destruct (fatalError st'); simpl; [|exact Hv].
    unfold okState in Hst. destruct (errorMessage st'); congruence.
  - exact Hx.
  - exact Hx.
Qed.

Lemma okFlow_from (c : Z) (v : Vars) (r : Result Flow) :
  (c <= loopCount v <= len)%Z -> okFlow v r -> flowFrom c r.
Proof.
  intros H. destruct r as [[st' v'|v']|e]; simpl; intuition lia.
Qed.

Lemma propLoop_ends_step (fuel : nat) :
  propLoopEnds fuel -> callEnds fuel -> propLoopEnds (S fuel).
Proof.
  intros IHp IHc st v Hst [Hlc Hfuel].
  pose proof (loopCheck_ok v Hlc) as Hc.
  unfold propLoopEnds, callEnds, room in *. unfold len in *. simpl.
  destruct (_ <? _)%Z; [|simpl; split; [assumption|lia]].
  destruct (loopCheck input v) as [v1|e]; [|exact Hc].
  destruct Hc as [Hc1 Hc2]. simpl.
  assert (Hloop : forall st2 v2,
             okState st2 ->
             (loopCount v1 <= loopCount v2 <= Z.of_nat (length input))%Z ->
             flowFrom (loopCount v) (propLoop input maxRecursiveCalls fuel st2 v2)).
  { intros st2 v2 H2 Hv2. apply (flowFrom_weaken (loopCount v2)); [lia|].
    apply IHp; [assumption|split; lia]. }
  assert (Hbreak : forall st2 v2,
             okState st2 ->
             (loopCount v1 <= loopCount v2 <= Z.of_nat (length input))%Z ->
             flowFrom (loopCount v) (breakBlock input st2 v2)).
  { intros st2 v2 H2 Hv2. apply (okFlow_from _ v2); [unfold len; lia|].
    now apply breakBlock_ok. }
  destruct (_ && _).
  - apply Hloop; [exact Hst|simpl; lia].
  - match goal with
    | |- flowFrom _ (bind (propSwitch _ _ ?v2) _) =>
        pose proof (propSwitch_ok input st v2 Hst) as Hs;
        destruct (propSwitch input st v2) as [[st2 v3|st2 v3|st2 v3]|e]
    end; simpl in Hs |- *; [| | |exact Hs]; destruct Hs as [H2 Hv3].
    + apply Hloop; [assumption|lia].
    + destruct (breakLoop st2); [apply Hbreak|apply Hloop]; assumption || (simpl; lia).
    + assert (Hx : varsFrom (loopCount v3)
                     (tokenizeElement input maxRecursiveCalls fuel v3 (current v3) false))
        by (apply IHc; lia).
      destruct (tokenizeElement input maxRecursiveCalls fuel v3 (current v3) false)
        as [v4|e]; simpl in Hx |- *; [|exact Hx]. unfold len in Hx.
      destruct (breakLoop st2); destruct (jsWithElement st2);
        (apply Hbreak || apply Hloop); assumption || (simpl; lia).
Qed.

Lemma elementLoop_ends_step (fuel : nat) :
  propLoopEnds fuel -> elementLoopEnds fuel -> elementLoopEnds (S fuel).
Proof.
  intros IHp IHe st v Hst [Hlc Hfuel].
  pose proof (loopCheck_ok v Hlc) as Hc.
  unfold propLoopEnds, elementLoopEnds, room in *. unfold len in *. simpl.
  destruct (_ <? _)%Z; [|simpl; split; [assumption|lia]].
  destruct (loopCheck input v) as [v1|e]; [|exact Hc].
  destruct Hc as [Hc1 Hc2]. simpl.
  match goal with
  | |- flowFrom _ (bind ?inner _) =>
      assert (Hinner : flowFrom (loopCount v1) inner); [|destruct inner as [[st2 v2|v2]|e]]
  end.
  - destruct (inElement st).
    + match goal with
      | |- flowFrom _ (bind ?e _) =>
          assert (Hp : flowFrom (loopCount v1) e); [|destruct e as [[st2 v2|v2]|e']]
      end.
      * destruct (hasElementName st).
        -- match goal with
           | |- flowFrom _ (propLoop _ _ _ ?st2 ?v2) =>
               apply (flowFrom_weaken (loopCount v2)); [simpl; lia|];
               apply IHp; [exact Hst|simpl; split; lia]
           end.
        -- simpl. split; [assumption|]. unfold len. lia.
      * simpl in Hp |- *. destruct Hp as [H2 Hv2].
        pose proof (tagSwitch_ok input st2 v2 H2) as [T1 T2].
        destruct (tagSwitch input st2 v2) as [st3 v3]. simpl in *.
        split; [assumption|lia].
      * exact Hp.
      * exact Hp.
    + pose proof (childSwitch_ok input st
                    (set_char (option_map (fun c => [c]) (charAt input (current v1))) v1)
                    Hst) as Hs.
      destruct (childSwitch _ _ _) as [st2|e]; simpl in Hs |- *; [|exact Hs].
      match goal with
      | |- flowFrom _ (bind (addChildBlock _ ?v2) _) =>
          pose proof (addChildBlock_ok st2 v2 Hs) as Ha;
          destruct (addChildBlock st2 v2) as [[st3 v3]|e]
      end; simpl in Ha |- *; [|exact Ha].
      destruct Ha as [H3 Hv3]. simpl in Hv3. split; [assumption|unfold len; lia].
  - simpl in Hinner |- *. destruct Hinner as [H2 Hv2]. unfold len in Hv2.
    pose proof (closeBlock_ok st2 v2 H2) as [T1 T2].
    destruct (closeBlock st2 v2) as [st3 v3]. simpl in *.
    destruct (elementClosed st3).
    + simpl. split; [assumption|unfold len; lia].
    + match goal with
      | |- flowFrom _ (elementLoop _ _ _ _ ?v4) =>
          apply (flowFrom_weaken (loopCount v4)); [simpl; lia|];
          apply IHe; [assumption|simpl; split; lia]
      end.
  - simpl in Hinner |- *. unfold len in *. lia.
  - exact Hinner.
Qed.

Lemma loops_end (fuel : nat) : elementLoopEnds fuel /\ propLoopEnds fuel /\ callEnds fuel.
Proof.
  induction fuel as [|fuel [IHe [IHp IHc]]].
  - unfold elementLoopEnds, propLoopEnds, callEnds, room.
    repeat split; intros; exfalso; lia.
  - split; [|split].
    + now apply elementLoop_ends_step.
    + now apply propLoop_ends_step.
    + now apply call_ends_step.
Qed.

Lemma mainLoop_ends (fuel : nat) (v : Vars) :
  room fuel v 1 ->
  varsFrom (loopCount v) (mainLoop input maxRecursiveCalls fuel v).
Proof.
  revert v. induction fuel as [|fuel IH]; intros v [Hlc Hfuel].
  - exfalso. lia.
  - pose proof (loopCheck_ok v Hlc) as Hc. unfold len in *. simpl.
    destruct (_ <? _)%Z; [|simpl; unfold len; lia].
    destruct (loopCheck input v) as [v1|e]; [|exact Hc].
    destruct Hc as [Hc1 Hc2]. simpl.
    destruct (nextElementPos input (current v1)) as [p|]; simpl.
    + match goal with
      | |- varsFrom _ (bind (tokenizeElement _ _ _ ?v2 _ _) _) =>
          assert (Hx : varsFrom (loopCount v2)
                         (tokenizeElement input maxRecursiveCalls fuel v2 p true))
            by (apply loops_end; split; simpl; unfold len; lia);
          destruct (tokenizeElement input maxRecursiveCalls fuel v2 p true) as [v3|e]
      end; simpl in Hx |- *; [|exact Hx]. unfold len in Hx.
      match goal with
      | |- varsFrom _ (mainLoop _ _ _ ?v4) =>
          assert (Hy : varsFrom (loopCount v4) (mainLoop input maxRecursiveCalls fuel v4))
            by (apply IH; split; simpl; unfold len; lia);
          destruct (mainLoop input maxRecursiveCalls fuel v4) as [v5|e]
      end; simpl in Hy |- *; [|exact Hy]. unfold len in *. lia.
    + unfold len. lia.
Qed.

End Loops.

(** X1.  The loops of the tokenizer end within the iterations that its
    [loopCheck] allows: the model never runs out of fuel, so its result
    is the program's, a token list or one of the program's errors. *)
Theorem tokenizer_ends (cfg : Config) (input : jsstr) :
  tokenizer cfg input <> Throw OutOfFuel.
Proof.
  unfold tokenizer, Lexer.tokenizer.
  pose proof (mainLoop_ends input (maxRecursiveCalls cfg) (fuelFor input)
                (mkVars 0 [] None None 0 0)) as H.
  destruct (mainLoop _ _ _ _) as [v|e]; simpl in *; [discriminate|].
  intros E. apply H; [|congruence].
  unfold room, fuelFor. simpl. lia.
Qed.

End LexerEnds.

(* ------------------------------------------------------------------ *)
(** ** compile ends *)

Module CompileEnds.

Import Generator.

(** A result of the program: a value, or one of the program's errors. *)
Definition ends {A : Type} (r : Result A) : Prop := r <> Throw OutOfFuel.

Lemma ends_ok {A : Type} (x : A) : ends (Ok x).
Proof. discriminate. Qed.

Lemma ends_bind {A B : Type} (e : Result A) (k : A -> Result B) :
  ends e -> (forall x, ends (k x)) -> ends (bind e k).
Proof.
  unfold ends. destruct e as [x|err]; simpl; intros He Hk; [apply Hk|congruence].
Qed.

Create HintDb ends.
#[local] Hint Resolve ends_ok : ends.
#[local] Hint Extern 1 (ends (Throw _)) => discriminate : ends.

Section Element.

Variable htmlDecode : jsstr -> jsstr.
Variable gen : Node -> bool -> Result (jsstr * Node).

Definition endsNode (n : Node) : Prop := forall s, ends (gen n s).

(** The calls on a node end, and so do the calls that the [shift] loop
    makes on the items of an array. *)
Definition endsDeep (n : Node) : Prop :=
  endsNode n /\
  match n with
  | NodeArray l => Forall endsNode l
  | _ => True
  end.

Lemma shiftLoop_ends (l : list Node) :
  forall value2, Forall endsNode l -> ends (shiftLoop gen l value2).
Proof.
  induction l as [|n r IH]; intros value2 H; simpl; [apply ends_ok|].
  inversion H as [|? ? Hn Hr]; subst.
  apply ends_bind; [apply Hn|]. intros [c n']. now apply IH.
Qed.

Lemma propValueCode_ends (pv : PropValue Node) :
  GeneratorFacts.propHolds endsDeep (mkProp [] pv None) ->
  ends (propValueCode gen pv).
Proof.
  unfold GeneratorFacts.propHolds. simpl.
  destruct pv as [| s | n]; simpl; auto with ends.
  intros [H1 H2].
  assert (Hother : ends ('(c, n0) <- gen n true ;; Ok (c, PObject n0))).
  { apply ends_bind; [apply H1|]. intros [c n0]. apply ends_ok. }
  destruct n as [body|v p s|nm ic ps cs p sc|t|nodes]; try exact Hother.
  destruct nodes as [|x r]; try exact Hother.
  destruct x as [body|v p s|nm ic ps cs p sc|t|nodes]; try exact Hother.
  destruct (TokenType_eqb _ _); [|exact Hother].
  apply ends_bind; [now apply shiftLoop_ends|]. intros. apply ends_ok.
Qed.

Lemma propsLoop_ends (props : list (ElementProp Node)) :
  forall propJs,
    Forall (GeneratorFacts.propHolds endsDeep) props ->
    ends (propsLoop gen props propJs).
Proof.
  induction props as [|p r IH]; intros propJs H; [apply ends_ok|].
  inversion H as [|? ? Hp Hr]; subst. cbn [propsLoop].
  apply ends_bind.
  - apply propValueCode_ends. destruct p; exact Hp.
  - intros [propValue pv]. apply ends_bind; [now apply IH|].
    intros [pj r']. apply ends_ok.
Qed.

Lemma classify_ends (children : list (Child Node)) :
  forall k, ends (classify children k).
Proof.
  induction children as [|c r IH]; intros k; simpl; [apply ends_ok|].
  destruct c as [t v p|n p]; [destruct t|]; auto with ends.
Qed.

Variable children : list (Child Node).
Variable kinds : Kinds.

Lemma emitChild_ends (m : nat) (c : Child Node) (e : Emit) :
  GeneratorFacts.childHolds endsDeep c ->
  ends (emitChild htmlDecode gen children kinds m c e).
Proof.
  intros Hc. unfold emitChild.
  assert (Hskip : ends match lastIndex e with
                       | Some i =>
                           match nth_error children i with
                           | Some last => Ok (TokenType_eqb (child_type last) e_child_js)
                           | None => Throw EngineTypeError
                           end
                       | None => Ok false
                       end).
  { destruct (lastIndex e); [destruct (nth_error _ _)|]; auto with ends. }
  assert (HasJs : forall b : bool,
             ends (if b then
                     match lastIndex e with
                     | Some i =>
                         match nth_error children i with
                         | Some (ChildValue _ (Some v) _) => Ok (endsAsOperand (trim v))
                         | _ => Throw EngineTypeError
                         end
                     | None => Ok false
                     end
                   else Ok false)).
  { intros [|]; [|apply ends_ok].
    destruct (lastIndex e); [destruct (nth_error _ _) as [[? [?|] ?|? ?]|]|];
      auto with ends. }
  destruct c as [t v p|n p].
  - destruct t; simpl;
      repeat match goal with
        | |- ends (bind _ _) => apply ends_bind; [|intros]
        | |- ends (match ?x with _ => _ end) => destruct x
        end; auto with ends.
  - simpl in Hc. destruct Hc as [Hn _].
    apply ends_bind; [exact Hskip|]. intros skip.
    apply ends_bind; [apply HasJs|]. intros asJs.
    apply ends_bind.
    + apply ends_bind; [apply Hn|]. intros [text n']. apply ends_ok.
    + intros [text c']. destruct asJs; apply ends_ok.
Qed.

Lemma emitLoop_ends (rest : list (Child Node)) :
  forall m e,
    Forall (GeneratorFacts.childHolds endsDeep) rest ->
    ends (emitLoop htmlDecode gen children kinds m rest e).
Proof.
  induction rest as [|c r IH]; intros m e H; [apply ends_ok|].
  inversion H as [|? ? Hc Hr]; subst. cbn [emitLoop].
  apply ends_bind; [now apply emitChild_ends|]. intros [e1 c1].
  apply ends_bind; [now apply IH|]. intros [e2 r2]. apply ends_ok.
Qed.

End Element.

Lemma generateCode_ends (htmlDecode : jsstr -> jsstr) (createElement : jsstr)
      (addUseStrict : bool) (node : Node) :
  endsDeep (generateCode htmlDecode createElement addUseStrict) node.
Proof.
  induction node as [body Hbody|v p s|name isClass props children pos sc Hprops Hchildren
                    |t|nodes Hnodes] using GeneratorFacts.Node_induction.
  - split; [|exact I]. intros s. cbn [generateCode].
    apply ends_bind.
    + induction Hbody as [|n r [Hn _] _ IH]; [apply ends_ok|].
      apply ends_bind; [apply Hn|]. intros [c n'].
      apply ends_bind; [exact IH|]. intros [cs r']. apply ends_ok.
    + intros [codes body']. destruct (_ && _); apply ends_ok.
  - split; [|exact I]. intros s0. apply ends_ok.
  - split; [|exact I]. intros s. cbn [generateCode].
    apply ends_bind.
    + destruct props as [|p0 r0]; [apply ends_ok|].
      apply ends_bind; [now apply propsLoop_ends|]. intros [propJs ps]. apply ends_ok.
    + intros [text props']. apply ends_bind; [apply classify_ends|]. intros kinds.
      apply ends_bind; [now apply emitLoop_ends|]. intros [e children'].
      apply ends_ok.
  - split; [|exact I]. intros s. cbn [generateCode].
    destruct (tok_type t); auto with ends.
  - split.
    + intros s. cbn [generateCode]. auto with ends.
    + eapply Forall_impl; [|exact Hnodes]. intros n [Hn _]. exact Hn.
Qed.

(** X3.  [compile] ends for every input: it returns the compiled text or
    throws one of the errors of the program.  The loops of the tokenizer
    are bounded by its [loopCheck], the walks of the parser by the tokens
    they read, and the generator by the tree. *)
Theorem compile_ends (htmlDecode : jsstr -> jsstr) (cfg : Config) (input : jsstr) :
  compile htmlDecode cfg input <> Throw OutOfFuel.
Proof.
  change (ends (compile htmlDecode cfg input)). unfold compile.
  apply ends_bind.
  - unfold tokenizer, Lexer.tokenizer.
    pose proof (LexerEnds.mainLoop_ends (removeComments input) (maxRecursiveCalls cfg)
                  (Lexer.fuelFor (removeComments input))
                  (Lexer.mkVars 0 [] None None 0 0)) as H.
    destruct (Lexer.mainLoop _ _ _ _) as [v|e]; simpl in *; [apply ends_ok|].
    unfold ends. intros E. apply H; [|congruence].
    unfold LexerEnds.room, Lexer.fuelFor. cbn [Lexer.loopCount]. lia.
  - intros tokens.
    assert (Hp : ends (fst (parser cfg tokens input))).
    { unfold parser, Parser.parser. simpl.
      match goal with
      | |- ends (bind ?e _) =>
          assert (Hx : ParserEnds.endsFrom 0 e);
          [apply ParserEnds.bodyLoop_ends; unfold ParserEnds.left; simpl; lia|]
      end.
      match type of Hx with
      | ParserEnds.endsFrom _ ?e => destruct e as [[body v]|err]
      end; simpl in *.
      - destruct (negb _); auto with ends.
      - unfold ends. congruence. }
    destruct (parser cfg tokens input) as [ast tokens']. simpl in Hp.
    apply ends_bind; [exact Hp|]. intros node.
    apply ends_bind; [apply generateCode_ends|]. intros r. apply ends_ok.
Qed.

End CompileEnds.

(* ------------------------------------------------------------------ *)
(** ** Every token has a position *)

Module LexerPositions.

Import Lexer.

Definition hasPos (t : Token) : Prop := tok_pos t <> None.

(** The tokens pushed so far have positions. *)
Definition placed (v : Vars) : Prop := Forall hasPos (tokens v).

(** The state at the start of an iteration of the attribute loop. *)
Definition quiet (st : State) : Prop :=
  breakLoop st = false /\ addElementEnd st = false.

(** [char] is the character before [current], as it is after the
    attribute loop has read a character. *)
Definition charRead (input : jsstr) (v : Vars) : Prop :=
  char v = option_map (fun c => [c]) (charAt input (current v - 1)).

(** What the ["/"] case of [tagSwitch] needs to set [addElementEnd]
    does not happen: when [char] is a slash, the character at [current]
    is no [">"]. *)
Definition slashAlone (input : jsstr) (v : Vars) : Prop :=
  isCh (char v) "/" = true -> optIs (peekCurrent input v) ">" = false.

Definition switchPlaced (input : jsstr) (r : Result Switch) : Prop :=
  match r with
  | Ok (Continue st' v') | Ok (Nested st' v') => quiet st' /\ placed v'
  | Ok (Break st' v') =>
      addElementEnd st' = false /\ placed v' /\
      (breakLoop st' = true -> slashAlone input v')
  | Throw _ => True
  end.

Definition flowPlaced (input : jsstr) (r : Result Flow) : Prop :=
  match r with
  | Ok (Next st' v') => addElementEnd st' = false /\ placed v' /\ slashAlone input v'
  | Ok (Return v') => placed v'
  | Throw _ => True
  end.

Definition loopPlaced (r : Result Flow) : Prop :=
  match r with
  | Ok (Next st' v') => addElementEnd st' = false /\ placed v'
  | Ok (Return v') => placed v'
  | Throw _ => True
  end.

Definition callPlaced (r : Result Vars) : Prop :=
  match r with
  | Ok v' => placed v'
  | Throw _ => True
  end.

Lemma placed_push (ty : TokenType) (value : jsstr) (p : Z) (v : Vars) :
  placed v -> placed (push (token ty value (Some p)) v).
Proof.
  intros H. unfold placed, push. simpl. apply Forall_app. split; [exact H|].
  constructor; [discriminate|constructor].
Qed.

#[local] Hint Resolve placed_push : core.

Lemma slash_not_gt (o : option ascii) :
  isCh (option_map (fun c => [c]) o) "/" = true -> optIs o ">" = false.
Proof.
  destruct o as [c|]; simpl; [|reflexivity].
  intros H. apply Ascii.eqb_eq in H. subst. reflexivity.
Qed.

Ltac cases :=
  repeat (match goal with
          | |- context [match ?x with _ => _ end] =>
              lazymatch x with
              | context [match _ with _ => _ end] => fail
              | _ => destruct x eqn:?
              end
          end; simpl in *; try discriminate).

Lemma propSwitch_placed (input : jsstr) (st : State) (v : Vars) :
  quiet st -> placed v -> charRead input v ->
  switchPlaced input (propSwitch input st v).
Proof.
  intros [Hb Ha] Hv Hc.
  assert (Hslash : isCh (char v) "/" = true ->
                   slashAlone input (set_current (current v - 1) v)).
  { intros Hs _. unfold peekCurrent. simpl.
    destruct (_ <? _)%Z; [|reflexivity].
    apply slash_not_gt. rewrite <- Hc. exact Hs. }
  unfold switchPlaced, propSwitch, quiet, bind, getCur, setCur in *.
  cases; repeat split; auto; try congruence;
    try (intros _; unfold slashAlone; simpl; congruence);
    exact (placed_push _ _ _ _ Hv).
Qed.

Lemma breakBlock_placed (input : jsstr) (st : State) (v : Vars) :
  addElementEnd st = false -> placed v -> slashAlone input v ->
  flowPlaced input (breakBlock input st v).
Proof.
  intros Ha Hv Hs.
  unfold flowPlaced, breakBlock, bind, lastTokenType, popElement in *.
  cases; repeat split; auto; exact (placed_push _ _ _ _ Hv).
Qed.

Lemma tagSwitch_placed (input : jsstr) (st : State) (v : Vars) :
  addElementEnd st = false -> slashAlone input v ->
  addElementEnd (fst (tagSwitch input st v)) = false /\
  tokens (snd (tagSwitch input st v)) = tokens v.
Proof.
  intros Ha Hs. unfold tagSwitch, slashAlone in *.
  cases; auto.
Qed.

Lemma childSwitch_placed (input : jsstr) (st : State) (v : Vars) :
  addElementEnd st = false ->
  match childSwitch input st v with
  | Ok st' => addElementEnd st' = false
  | Throw _ => True
  end.
Proof.
  intros Ha. unfold childSwitch, bind, getCur, setCur in *.
  cases; auto.
Qed.

Lemma addChildBlock_placed (st : State) (v : Vars) :
  addElementEnd st = false -> placed v ->
  match addChildBlock st v with
  | Ok (st', v') => addElementEnd st' = false /\ placed v'
  | Throw _ => True
  end.
Proof.
  intros Ha Hv. unfold addChildBlock, bind, getCur, setCur in *.
  cases; auto; split; auto; exact (placed_push _ _ _ _ Hv).
Qed.

Lemma closeBlock_placed (st : State) (v : Vars) :
  addElementEnd st = false -> placed v ->
  addElementEnd (fst (closeBlock st v)) = false /\
  placed (snd (closeBlock st v)).
Proof.
  intros Ha Hv. unfold closeBlock, popElement, pushElement in *.
  cases; auto; split; auto; try congruence; exact (placed_push _ _ _ _ Hv).
Qed.

#[local] Arguments propSwitch : simpl never.
#[local] Arguments breakBlock : simpl never.
#[local] Arguments tagSwitch : simpl never.
#[local] Arguments childSwitch : simpl never.
#[local] Arguments addChildBlock : simpl never.
#[local] Arguments closeBlock : simpl never.
#[local] Arguments loopCheck : simpl never.
#[local] Arguments nextElementPos : simpl never.
#[local] Arguments Z.add : simpl never.
#[local] Arguments Z.sub : simpl never.

Section Loops.

Variable input : jsstr.
Variable maxRecursiveCalls : Z.

Definition propLoopPlaced (fuel : nat) : Prop :=
  forall st v, quiet st -> placed v ->
               flowPlaced input (propLoop input maxRecursiveCalls fuel st v).

Definition elementLoopPlaced (fuel : nat) : Prop :=
  forall st v, addElementEnd st = false -> placed v ->
               loopPlaced (elementLoop input maxRecursiveCalls fuel st v).

Definition tokenizeElementPlaced (fuel : nat) : Prop :=
  forall v startPosition firstNode,
    placed v ->
    callPlaced (tokenizeElement input maxRecursiveCalls fuel v startPosition firstNode).

Lemma loopCheck_same (v v1 : Vars) :
  loopCheck input v = Ok v1 -> v1 = set_loopCount (loopCount v + 1) v.
Proof.
  unfold loopCheck. destruct (_ >? _)%Z; [discriminate|]. intros H. now inversion H.
Qed.

Lemma past_end (v : Vars) :
  (current v <? Z.of_nat (length input))%Z = false -> slashAlone input v.
Proof.
  intros H _. unfold peekCurrent. now rewrite H.
Qed.

Lemma call_placed_step (fuel : nat) :
  elementLoopPlaced fuel -> tokenizeElementPlaced (S fuel).
Proof.
  intros IHe v sp fn Hv. simpl.
  destruct (_ >? _)%Z; [exact I|].
  match goal with
  | |- callPlaced (bind (elementLoop _ _ _ ?st ?v1) _) =>
      assert (Hx : loopPlaced (elementLoop input maxRecursiveCalls fuel st v1));
      [ apply IHe; [reflexivity|];
        destruct (_ && _); [exact (placed_push _ _ _ _ Hv)|exact Hv]
      | destruct (elementLoop input maxRecursiveCalls fuel st v1) as [[st' v'|v']|e] ]
  end; simpl in Hx |- *; [|exact Hx|exact I].
  destruct (fatalError st'); [exact I|apply Hx].
Qed.

Lemma propLoop_placed_step (fuel : nat) :
  propLoopPlaced fuel -> tokenizeElementPlaced fuel -> propLoopPlaced (S fuel).
Proof.
  intros IHp IHc st v Hq Hv. simpl.
  destruct (_ <? _)%Z eqn:G;
    [|simpl; destruct Hq; repeat split; auto using past_end].
  destruct (loopCheck input v) as [v1|e] eqn:L; [|exact I].
  apply loopCheck_same in L. subst v1. simpl.
  destruct (_ && _).
  - apply IHp; [exact Hq|exact Hv].
  - match goal with
    | |- flowPlaced _ (bind (propSwitch _ _ ?v2) _) =>
        assert (Hs : switchPlaced input (propSwitch input st v2));
        [ apply propSwitch_placed; [exact Hq|exact Hv|];
          unfold charRead; simpl; now rewrite Z.add_simpl_r
        | destruct (propSwitch input st v2) as [[st2 v3|st2 v3|st2 v3]|e] ]
    end; simpl in Hs |- *; [| | |exact I].
    + destruct Hs as [H2 Hv3]. now apply IHp.
    + destruct Hs as (Ha & Hv3 & Hb). destruct (breakLoop st2) eqn:B.
      * apply breakBlock_placed; auto.
      * apply IHp; [split; assumption|assumption].
    + destruct Hs as [[Hb Ha] Hv3].
      assert (Hx : callPlaced (tokenizeElement input maxRecursiveCalls fuel v3
                                 (current v3) false)) by now apply IHc.
      destruct (tokenizeElement input maxRecursiveCalls fuel v3 (current v3) false)
        as [v4|e]; simpl in Hx |- *; [|exact I].
      rewrite Hb. apply IHp; [split; assumption|].
      destruct (jsWithElement st2); exact Hx.
Qed.

Lemma elementLoop_placed_step (fuel : nat) :
  propLoopPlaced fuel -> elementLoopPlaced fuel -> elementLoopPlaced (S fuel).
Proof.
  intros IHp IHe st v Ha Hv. simpl.
  destruct (_ <? _)%Z eqn:G; [|simpl; split; assumption].
  destruct (loopCheck input v) as [v1|e] eqn:L; [|exact I].
  apply loopCheck_same in L. subst v1. simpl.
  match goal with
  | |- loopPlaced (bind ?inner _) =>
      assert (Hinner : loopPlaced inner); [|destruct inner as [[st2 v2|v2]|e]]
  end.
  - destruct (inElement st).
    + match goal with
      | |- loopPlaced (bind ?e _) =>
          assert (Hp : flowPlaced input e); [|destruct e as [[st2 v2|v2]|e']]
      end.
      * destruct (hasElementName st).
        -- apply IHp; [split; [reflexivity|exact Ha]|exact Hv].
        -- simpl. repeat split; [exact Ha|exact Hv|].
           intros Hs. unfold peekCurrent. simpl in Hs |- *. rewrite G.
           now apply slash_not_gt.
      * simpl in Hp |- *. destruct Hp as (H2 & Hv2 & Hs).
        pose proof (tagSwitch_placed input st2 v2 H2 Hs) as [T1 T2].
        destruct (tagSwitch input st2 v2) as [st3 v3]. simpl in *.
        split; [assumption|]. unfold placed. now rewrite T2.
      * exact Hp.
      * exact I.
    + match goal with
      | |- loopPlaced (bind (childSwitch _ _ ?v2) _) =>
          pose proof (childSwitch_placed input st v2 Ha) as Hs;
          destruct (childSwitch input st v2) as [st2|e]
      end; simpl in Hs |- *; [|exact I].
      match goal with
      | |- loopPlaced (bind (addChildBlock _ ?v2) _) =>
          pose proof (addChildBlock_placed st2 v2 Hs Hv) as Hb;
          destruct (addChildBlock st2 v2) as [[st3 v3]|e]
      end; simpl in Hb |- *; [exact Hb|exact I].
  - simpl in Hinner |- *. destruct Hinner as [H2 Hv2].
    pose proof (closeBlock_placed st2 v2 H2 Hv2) as [T1 T2].
    destruct (closeBlock st2 v2) as [st3 v3]. simpl in *.
    destruct (elementClosed st3); [simpl; split; assumption|].
    apply IHe; assumption.
  - exact Hinner.
  - exact I.
Qed.

Lemma loops_placed (fuel : nat) :
  elementLoopPlaced fuel /\ propLoopPlaced fuel /\ tokenizeElementPlaced fuel.
Proof.
  induction fuel as [|fuel [IHe [IHp IHc]]].
  - split; [|split].
    + intros st v Ha Hv. simpl. destruct (_ <? _)%Z; simpl; auto.
    + intros st v [Hb Ha] Hv. simpl. destruct (_ <? _)%Z eqn:G; simpl;
        auto using past_end.
    + intros v sp fn Hv. exact I.
  - split; [|split].
    + now apply elementLoop_placed_step.
    + now apply propLoop_placed_step.
    + now apply call_placed_step.
Qed.

Lemma mainLoop_placed (fuel : nat) :
  forall v, placed v -> callPlaced (mainLoop input maxRecursiveCalls fuel v).
Proof.
  induction fuel as [|fuel IH]; intros v Hv; simpl;
    (destruct (_ <? _)%Z; [|exact Hv]); [exact I|].
  destruct (loopCheck input v) as [v1|e] eqn:L; [|exact I].
  apply loopCheck_same in L. subst v1. simpl.
  destruct (nextElementPos input (current v)) as [p|]; simpl.
  - match goal with
    | |- callPlaced (bind (tokenizeElement _ _ _ ?v2 _ _) _) =>
        assert (Hx : callPlaced (tokenizeElement input maxRecursiveCalls fuel v2 p true))
          by (apply loops_placed; exact Hv);
        destruct (tokenizeElement input maxRecursiveCalls fuel v2 p true) as [v3|e]
    end; simpl in Hx |- *; [|exact I].
    apply IH. exact Hx.
  - exact (placed_push _ _ _ _ Hv).
Qed.

End Loops.

(** X17.  Every token that [tokenizer] returns has a position: the branch
    that would push the closing token of a self-closing element with a
    [null] position is never taken, since it asks for a slash in [char]
    and a [">"] at [current] where [current] is the place of that slash
    or past the end.  The closing token of [<br/>] has the offset of its
    [">"] like every other. *)
Theorem tokenizer_positions (cfg : Config) (input : jsstr) (toks : list Token) :
  tokenizer cfg input = Ok toks ->
  Forall (fun t => exists p, tok_pos t = Some p) toks.
Proof.
  unfold tokenizer, Lexer.tokenizer. intros H.
  pose proof (mainLoop_placed input (maxRecursiveCalls cfg) (fuelFor input)
                (mkVars 0 [] None None 0 0) (Forall_nil _)) as Hp.
  destruct (mainLoop _ _ _ _) as [v|e]; simpl in *; [|discriminate].
  inversion H; subst. eapply Forall_impl; [|exact Hp].
  intros t Ht. unfold hasPos in Ht. destruct (tok_pos t) as [p|]; [now exists p|congruence].
Qed.

Lemma tokenizer_positions_witness :
  exists toks,
    tokenizer defaultConfig (str "var a = <br/>;") = Ok toks /\
    Forall (fun t => exists p, tok_pos t = Some p) toks.
Proof.
  eexists. split; [vm_compute; reflexivity|].
  apply (tokenizer_positions defaultConfig (str "var a = <br/>;")).
  vm_compute. reflexivity.
Defined.

End LexerPositions.
